(** * LCD-Station: the departure lifecycle engine of [main.py]

    A shallow embedding of [DepartureBoard.set_departures],
    [DepartureBoard._create_row_from_item],
    [DepartureBoard._fill_up_to_six] and [DepartureBoard._refresh_statuses]
    together with [_parse_today_or_tomorrow_time], followed by the properties
    of the engine.

    Conventions of the embedding.
    - A naive [datetime] is an integer number of microseconds ([Z]) counted
      from a midnight; [timedelta] arithmetic is integer arithmetic on that
      scale.  The clock is taken to read instants well inside the range of
      [datetime] (more than 32 years from the years 1 and 9999), so that
      the constants the code adds to a time (12 hours, a day, 60 seconds)
      and a delay of up to 10^9 seconds never leave that range; what a
      larger delay does is told by [add_seconds].
    - [(a - b).total_seconds()] is the float of an integer number of
      microseconds divided by 10^6.  It is only ever compared with integer
      thresholds; division and rounding are monotone and integers of that
      size are floats, so [total_seconds() <= k] holds exactly when the
      microsecond count is [<= k * 10^6].  A delta is therefore kept as its
      microsecond count and a threshold [k] is compared as [secs k].
    - Every [datetime.now()] of the source is an explicit argument.
    - JSON data are values of [pyval] (null, booleans, integers, floats,
      strings, arrays, objects).  A string is the list of the bytes of its
      UTF-8 encoding.
    - Code that can raise returns a [result].  Where the outcome of the
      code is not fixed by the source alone, the embedding answers
      [Raise NotModelled] instead of guessing: [int] of a string with a
      character outside ASCII (it may be a decimal digit of another
      script) or with more than 4300 digits (a [ValueError] in recent
      interpreters only), a [QLabel] created from [None], and a delay
      between 10^9 seconds and the whole span of [datetime], whose overflow
      depends on the date.
    - A row widget is modelled by the two labels the engine reads and
      writes; [self.rows] and [self._model] are appended to, deleted from
      and cleared at the same positions, so the row is kept inside its
      model entry and [len(self.rows)] is the length of [_model]. *)

From Stdlib Require Import ZArith Lia Sorted Ascii String.
From stdpp Require Import gmap strings list fin_maps sorting.

#[local] Set Warnings "-register-all,-clear-no-such-hyp".
#[local] Open Scope Z_scope.

(** ** Python values and the conversions the engine applies to them *)

(** A float: a finite one is given by a fraction of its value. *)
Inductive pyfloat : Type :=
  | Finite (num : Z) (den : positive)
  | Infinite (negative : bool)
  | NaN.

Inductive pyval : Type :=
  | PNone
  | PBool (b : bool)
  | PInt (n : Z)
  | PFloat (f : pyfloat)
  | PStr (s : string)
  | PList (l : list pyval)
  | PDict (d : gmap string pyval).

(** The exceptions met in the engine; [NotModelled] is no exception of
    Python: it marks an outcome the embedding leaves open. *)
Inductive exn : Type :=
  | AttributeError
  | ValueError
  | TypeError
  | OverflowError
  | NotModelled.

Inductive result (A : Type) : Type :=
  | Ok (a : A)
  | Raise (e : exn).
Arguments Ok {A} a.
Arguments Raise {A} e.

#[global] Instance result_bind : MBind result := fun A B k r =>
  match r with
  | Ok a => k a
  | Raise e => Raise e
  end.

(** [try: r  except Exception: dflt] *)
Definition except_exception {A} (r : result A) (dflt : A) : result A :=
  match r with
  | Ok a => Ok a
  | Raise NotModelled => Raise NotModelled
  | Raise _ => Ok dflt
  end.

(** [bool(v)] *)
Definition truthy (v : pyval) : bool :=
  match v with
  | PNone => false
  | PBool b => b
  | PInt n => negb (n =? 0)
  | PFloat (Finite n _) => negb (n =? 0)
  | PFloat _ => true
  | PStr s => negb (String.eqb s "")
  | PList l => match l with [] => false | _ :: _ => true end
  | PDict d => negb (bool_decide (size d = 0%nat))
  end.

(** [a or b] *)
Definition py_or (a b : pyval) : pyval := if truthy a then a else b.

(** [d.get(k, dflt)] *)
Definition dict_get (d : gmap string pyval) (k : string) (dflt : pyval) : pyval :=
  default dflt (d !! k).

Definition byte (c : ascii) : nat := nat_of_ascii c.

(** The ASCII characters of [str.isspace]. *)
Definition is_space (c : ascii) : bool :=
  ((9 <=? byte c)%nat && (byte c <=? 13)%nat) || ((28 <=? byte c)%nat && (byte c <=? 32)%nat).

(** The other characters of [str.isspace], as UTF-8: U+0085 and U+00A0
    in two bytes; U+1680, U+2000 to U+200A, U+2028, U+2029, U+202F, U+205F
    and U+3000 in three. *)
Definition is_space2 (a b : ascii) : bool :=
  (byte a =? 194)%nat && ((byte b =? 133)%nat || (byte b =? 160)%nat).

Definition is_space3 (a b c : ascii) : bool :=
  ((byte a =? 225)%nat && (byte b =? 154)%nat && (byte c =? 128)%nat)
  || ((byte a =? 226)%nat && (byte b =? 128)%nat
      && (((128 <=? byte c)%nat && (byte c <=? 138)%nat)
          || (byte c =? 168)%nat || (byte c =? 169)%nat || (byte c =? 175)%nat))
  || ((byte a =? 226)%nat && (byte b =? 129)%nat && (byte c =? 159)%nat)
  || ((byte a =? 227)%nat && (byte b =? 128)%nat && (byte c =? 128)%nat).

(** White space dropped from the head of a text; with [back] the text is
    read from its end, each character's bytes last to first. *)
Fixpoint strip_head (back : bool) (l : list ascii) : list ascii :=
  match l with
  | [] => []
  | a :: r =>
      if is_space a then strip_head back r
      else
        match r with
        | [] => l
        | b :: r2 =>
            if (if back then is_space2 b a else is_space2 a b) then strip_head back r2
            else
              match r2 with
              | [] => l
              | c :: r3 =>
                  if (if back then is_space3 c b a else is_space3 a b c)
                  then strip_head back r3
                  else l
              end
        end
  end.

(** [s.strip()] *)
Definition py_strip (s : string) : string :=
  string_of_list_ascii
    (rev (strip_head true (rev (strip_head false (list_ascii_of_string s))))).

Definition digit_of (c : ascii) : option Z :=
  if ((48 <=? byte c)%nat && (byte c <=? 57)%nat) then Some (Z.of_nat (byte c - 48)) else None.

(** Decimal digits, a single underscore allowed between two digits. *)
Fixpoint digits (acc : Z) (after_digit : bool) (l : list ascii) : option Z :=
  match l with
  | [] => if after_digit then Some acc else None
  | c :: l' =>
      match digit_of c with
      | Some d => digits (10 * acc + d) true l'
      | None =>
          if Ascii.eqb c "_"%char && after_digit then digits acc false l' else None
      end
  end.

(** The white space [int] skips around the numeral of an ASCII string:
    tab, line feed, vertical tab, form feed, carriage return, space. *)
Definition is_c_space (c : ascii) : bool :=
  ((9 <=? byte c)%nat && (byte c <=? 13)%nat) || (byte c =? 32)%nat.

Fixpoint skip_c_space (l : list ascii) : list ascii :=
  match l with
  | [] => []
  | c :: l' => if is_c_space c then skip_c_space l' else l
  end.

Fixpoint count_digits (l : list ascii) : nat :=
  match l with
  | [] => 0
  | c :: l' =>
      match digit_of c with
      | Some _ => S (count_digits l')
      | None => count_digits l'
      end
  end.

(** [int(s)] for a string. *)
Definition int_of_str (s : string) : result Z :=
  let l := list_ascii_of_string s in
  if forallb (fun c => (byte c <? 128)%nat) l then
    let body := rev (skip_c_space (rev (skip_c_space l))) in
    let numeral :=
      match body with
      | "+"%char :: r => digits 0 false r
      | "-"%char :: r => Z.opp <$> digits 0 false r
      | _ => digits 0 false body
      end in
    match numeral with
    | None => Raise ValueError
    | Some n => if (count_digits body <=? 4300)%nat then Ok n else Raise NotModelled
    end
  else Raise NotModelled.

(** [int(v)]; a float is truncated towards zero. *)
Definition py_int (v : pyval) : result Z :=
  match v with
  | PNone => Raise TypeError
  | PBool b => Ok (if b then 1 else 0)
  | PInt n => Ok n
  | PFloat (Finite n d) => Ok (Z.quot n (Z.pos d))
  | PFloat (Infinite _) => Raise OverflowError
  | PFloat NaN => Raise ValueError
  | PStr s => int_of_str s
  | PList _ => Raise TypeError
  | PDict _ => Raise TypeError
  end.

(** ** Time *)

Definition secs (k : Z) : Z := k * 1000000.
Definition day_us : Z := secs 86400.

(** [s.split(":", 1)] when [s] holds a colon: the text before the first
    colon and the text after it. *)
Fixpoint split_colon (s : string) : option (string * string) :=
  match s with
  | EmptyString => None
  | String c s' =>
      if Ascii.eqb c ":"%char then Some (EmptyString, s')
      else match split_colon s' with
           | Some (a, b) => Some (String c a, b)
           | None => None
           end
  end.

(** [hour, minute = [int(x) for x in hhmm.split(":", 1)]]: a value with
    no [split] method raises [AttributeError], a text without a colon
    gives one part only and the unpacking raises [ValueError]. *)
Definition split_hhmm (hhmm : pyval) : result (Z * Z) :=
  match hhmm with
  | PStr s =>
      match split_colon s with
      | Some (a, b) =>
          hour ← int_of_str a;
          minute ← int_of_str b;
          Ok (hour, minute)
      | None => Raise ValueError
      end
  | _ => Raise AttributeError
  end.

(** The [try] block of [_parse_today_or_tomorrow_time]: every failure
    ends in the [except] branch, hour and minute 0. *)
Definition parse_hhmm (hhmm : pyval) : result (Z * Z) :=
  except_exception (split_hhmm hhmm) (0, 0).

(** The arguments of [datetime.replace] are C [int]s. *)
Definition c_int (n : Z) : bool := (-2147483648 <=? n) && (n <=? 2147483647).

(** [now.replace(hour=hour, minute=minute, second=0, microsecond=0)] *)
Definition replace_hm (now hour minute : Z) : result Z :=
  if negb (c_int hour && c_int minute) then Raise OverflowError
  else if (0 <=? hour) && (hour <=? 23) && (0 <=? minute) && (minute <=? 59)
  then Ok (now - now `mod` day_us + secs (hour * 3600 + minute * 60))
  else Raise ValueError.

Definition _parse_today_or_tomorrow_time (now : Z) (hhmm : pyval) : result Z :=
  '(hour, minute) ← parse_hhmm hhmm;
  candidate ← replace_hm now hour minute;
  Ok (if candidate <? now - secs (12 * 3600) then candidate + day_us else candidate).

(** The seconds from [datetime.min] to [datetime.max], rounded up. *)
Definition datetime_span : Z := 315537897600.

(** [t + timedelta(seconds=n)] for a time [t] within a day of a clock
    read: a delay as long as the span of [datetime] overflows whatever
    the date (also when [timedelta] itself refuses it), one of up to
    10^9 seconds does not. *)
Definition add_seconds (t n : Z) : result Z :=
  if datetime_span <=? Z.abs n then Raise OverflowError
  else if Z.abs n <=? 1000000000 then Ok (t + secs n)
  else Raise NotModelled.

(** ** The schedule store *)

Record SchedItem : Type := {
  raw : gmap string pyval;
  time : Z;
  shown : bool
}.

(** One round of the first loop of [set_departures]; [now] is the clock
    read by [_parse_today_or_tomorrow_time]. *)
Definition schedule_item (now : Z) (item : pyval) : result SchedItem :=
  match item with
  | PDict d =>
      dep_time ← _parse_today_or_tomorrow_time now (dict_get d "time" (PStr "00:00"));
      delay_secs ← py_int (py_or (dict_get d "delay_secs" (PInt 0)) (PInt 0));
      adj_time ← add_seconds dep_time delay_secs;
      Ok {| raw := d; time := adj_time; shown := false |}
  | _ => Raise AttributeError
  end.

(** The loop itself: [clock k] is the clock read while element [k] is
    parsed.  When an element raises, the items appended so far stay in
    [_all_items]. *)
Fixpoint build_items (clock : nat -> Z) (k : nat) (departures : list pyval)
    (acc : list SchedItem) : list SchedItem * option exn :=
  match departures with
  | [] => (acc, None)
  | item :: rest =>
      match schedule_item (clock k) item with
      | Ok it => build_items clock (S k) rest (acc ++ [it])
      | Raise e => (acc, Some e)
      end
  end.

(** [list.sort(key=lambda x: x["time"])] is a stable sort; a stable
    insertion sort computes the same list. *)
Fixpoint insert_by_time (x : SchedItem) (l : list SchedItem) : list SchedItem :=
  match l with
  | [] => [x]
  | y :: l' => if time x <=? time y then x :: l else y :: insert_by_time x l'
  end.

Definition sort_by_time (l : list SchedItem) : list SchedItem :=
  foldr insert_by_time [] l.

(** ** The visible window *)

Record Flags : Type := {
  pass_through : bool;
  terminal_here : bool;
  is_delayed : bool
}.

(** The [played] dictionary: it is created with the keys [pre77],
    [arrival] and [departed]; the key [pass] is read with
    [.get("pass", False)], so an absent key and [False] are the same. *)
Record Played : Type := {
  pre77 : bool;
  arrival : bool;
  departed : bool;
  pass : bool
}.

Record DepartureRow : Type := {
  platform_label : string;
  status_label : string
}.

Record Visible : Type := {
  src : nat;  (* position in [_all_items] of the item this entry was made
                 from: the identity of the Python object [next_item] *)
  row : DepartureRow;
  e_time : Z;
  e_raw : gmap string pyval;
  flags : Flags;
  dwell_until : option Z;
  played : Played;
  last_delta : option Z;
  post_depart_at : option Z  (* an absent key is [None] *)
}.

Record Board : Type := {
  _all_items : list SchedItem;
  _model : list Visible;
  notice_label : string;
  _notice_blink : bool;  (* [self._notice_blink.isActive()] *)
  _thresholds : option pyval;  (* [None]: no such attribute *)
  on_event : bool  (* a callable [on_event] attribute is installed *)
}.

(** [QLabel(v)], and [MarqueeLabel(v)] which hands [v] to [QLabel] and to
    [setText]: the text of the label.  Qt takes a [str] and raises
    [TypeError] for a value of another type. *)
Definition qt_label (v : pyval) : result string :=
  match v with
  | PStr s => Ok s
  | PNone => Raise NotModelled
  | _ => Raise TypeError
  end.

Definition is_str (v : pyval) : bool :=
  match v with
  | PStr _ => true
  | _ => false
  end.

(** The [stops] branch: ["・".join(stops)] for a list that is not empty
    raises [TypeError] unless every element is a [str]. *)
Definition stops_label (stops : pyval) : result unit :=
  match stops with
  | PList l => if forallb is_str l then Ok () else Raise TypeError
  | _ => Ok ()
  end.

(** [_create_row_from_item]: the labels of the row that the engine uses
    later (the initial status is the fifth constructor argument), or the
    exception raised on the way.  The four label texts go to Qt in the
    order time, destination, line, platform; then come the stops, and the
    time and the delay are converted once more.  The outcome of that
    conversion does not depend on the clock, and [now] stands for its
    clock read. *)
Definition _create_row_from_item (now : Z) (item : gmap string pyval) : result DepartureRow :=
  _ ← qt_label (dict_get item "time" (PStr "--:--"));
  _ ← qt_label (dict_get item "destination" (PStr ""));
  _ ← qt_label (dict_get item "line" (PStr ""));
  platform ← qt_label (dict_get item "platform" (PStr "-"));
  _ ← stops_label (dict_get item "stops" PNone);
  _ ← _parse_today_or_tomorrow_time now (dict_get item "time" (PStr "00:00"));
  _ ← py_int (py_or (dict_get item "delay_secs" (PInt 0)) (PInt 0));
  Ok {| platform_label := platform; status_label := "定刻" |}.

(** [str(v).strip() == "回送"]: [str] of a value that is not a string is
    ASCII text, which is never that word. *)
Definition is_kaisou (v : pyval) : bool :=
  match v with
  | PStr s => String.eqb (py_strip s) "回送"
  | _ => false
  end.

(** [int(raw.get("delay_secs", 0) or 0) > 0]; the same conversion has
    succeeded in [_create_row_from_item] just before. *)
Definition delayed_of (item : gmap string pyval) : bool :=
  match py_int (py_or (dict_get item "delay_secs" (PInt 0)) (PInt 0)) with
  | Ok n => 0 <? n
  | Raise _ => false
  end.

(** The dictionary appended to [_model] for schedule item [i] and its
    row. *)
Definition new_entry (i : nat) (it : SchedItem) (r : DepartureRow) : Visible :=
  {| src := i;
     row := r;
     e_time := time it;
     e_raw := raw it;
     flags := {| pass_through := truthy (dict_get (raw it) "pass_through" (PBool false));
                 terminal_here := is_kaisou (dict_get (raw it) "type" (PStr ""));
                 is_delayed := delayed_of (raw it) |};
     dwell_until := None;
     played := {| pre77 := false; arrival := false; departed := false; pass := false |};
     last_delta := None;
     post_depart_at := None |}.

(** [not it["shown"] and it["time"] >= now - timedelta(seconds=60)] *)
Definition eligible (now : Z) (it : SchedItem) : bool :=
  negb (shown it) && (now - secs 60 <=? time it).

(** The [for ... break] scan of [_fill_up_to_six]: the first eligible item
    and its position, counted from [i]. *)
Fixpoint find_next (now : Z) (i : nat) (items : list SchedItem) : option (nat * SchedItem) :=
  match items with
  | [] => None
  | it :: rest => if eligible now it then Some (i, it) else find_next now (S i) rest
  end.

Definition set_shown (it : SchedItem) : SchedItem :=
  {| raw := raw it; time := time it; shown := true |}.

(** The [while len(self.rows) < 6] loop.  It returns the schedule, the
    window, the positions of the items promoted, in order (the rows
    handed to [list_layout.addWidget]), and the exception that ended the
    loop, if any: the row is built before anything is appended or marked,
    so an item whose row raises stays as it was. *)
Fixpoint fill_loop (fuel : nat) (now : Z) (items : list SchedItem) (model : list Visible)
    : list SchedItem * list Visible * list nat * option exn :=
  match fuel with
  | O => (items, model, [], None)
  | S fuel' =>
      if (length model <? 6)%nat then
        match find_next now 0 items with
        | None => (items, model, [], None)
        | Some (i, next_item) =>
            match _create_row_from_item now (raw next_item) with
            | Raise e => (items, model, [], Some e)
            | Ok r =>
                let '(items', model', added, e) :=
                  fill_loop fuel' now (alter set_shown i items)
                    (model ++ [new_entry i next_item r]) in
                (items', model', i :: added, e)
            end
        end
      else (items, model, [], None)
  end.

(** [_fill_up_to_six]; the badges and the end-of-service banner it sets
    afterwards are presentation and are left out.  Six rounds are enough
    for the loop to leave by its own test (lemma [fill_loop_exit]). *)
Definition _fill_up_to_six (now : Z) (b : Board) : Board * list nat * option exn :=
  let '(items', model', added, e) := fill_loop 6 now (_all_items b) (_model b) in
  ({| _all_items := items'; _model := model';
      notice_label := notice_label b; _notice_blink := _notice_blink b;
      _thresholds := _thresholds b; on_event := on_event b |}, added, e).

(** The outcome of [set_departures]: the board as the call leaves it, the
    schedule positions promoted into the window and the exception raised,
    if any.  An exception in the first loop leaves the window as it was
    and the schedule neither complete nor sorted; one in the fill step
    leaves the sorted schedule and the rows promoted before it. *)
Definition set_departures (clock : nat -> Z) (now_fill : Z) (departures : list pyval)
    (b : Board) : Board * list nat * option exn :=
  match build_items clock 0 departures [] with
  | (items, Some e) =>
      ({| _all_items := items; _model := _model b;
          notice_label := notice_label b; _notice_blink := _notice_blink b;
          _thresholds := _thresholds b; on_event := on_event b |}, [], Some e)
  | (items, None) =>
      _fill_up_to_six now_fill
        {| _all_items := sort_by_time items; _model := [];
           notice_label := notice_label b; _notice_blink := _notice_blink b;
           _thresholds := _thresholds b; on_event := on_event b |}
  end.

(** ** The tick: [_refresh_statuses] *)

(** The six locals read from [self._thresholds] at the head of
    [_refresh_statuses], each with its default. *)
Record Limits : Type := {
  pre77_sound_before : Z;
  arrival_sound_before : Z;
  stop_before : Z;
  remove_after : Z;
  pass_before : Z;
  pass_remove_after : Z
}.

(** [int(self._thresholds.get(key, dflt))]; only a dictionary has
    [get]. *)
Definition threshold (th : pyval) (key : string) (dflt : Z) : result Z :=
  match th with
  | PDict d => py_int (dict_get d key (PInt dflt))
  | _ => Raise AttributeError
  end.

Definition read_limits (th : pyval) : result Limits :=
  a ← threshold th "approach_before_secs" 77;
  b ← threshold th "arrival_before_secs" 57;
  c ← threshold th "stop_before_secs" 40;
  d ← threshold th "remove_after_secs" 10;
  e ← threshold th "pass_before_secs" 20;
  f ← threshold th "pass_remove_after_secs" 10;
  Ok {| pre77_sound_before := a; arrival_sound_before := b; stop_before := c;
        remove_after := d; pass_before := e; pass_remove_after := f |}.

(** Status texts written with [row.update_status]. *)
Definition st_terminal_stopped : string := "終着 停車中".
Definition st_terminal_arrived : string := "終着 到着".
Definition st_terminal_approaching : string := "終着 接近".
Definition st_stopped : string := "停車中".
Definition st_arrived : string := "到着".
Definition st_approaching : string := "接近".
Definition st_on_time : string := "定刻".
Definition st_delayed : string := "遅延".
Definition st_departed : string := "発車".
Definition st_passed : string := "通過".

(** The notice banner: its text and whether its blink timer runs. *)
Definition NoticeState : Type := (string * bool)%type.

Definition notice_on (r : DepartureRow) : NoticeState :=
  ((platform_label r ++ "番線に列車が通過します")%string, true).
Definition notice_off : NoticeState := (""%string, false).

Definition update_status (s : string) (e : Visible) : Visible :=
  {| src := src e;
     row := {| platform_label := platform_label (row e); status_label := s |};
     e_time := e_time e; e_raw := e_raw e; flags := flags e;
     dwell_until := dwell_until e; played := played e;
     last_delta := last_delta e; post_depart_at := post_depart_at e |}.

Definition set_dwell_until (d : Z) (e : Visible) : Visible :=
  {| src := src e; row := row e; e_time := e_time e; e_raw := e_raw e; flags := flags e;
     dwell_until := Some d; played := played e;
     last_delta := last_delta e; post_depart_at := post_depart_at e |}.

Definition set_post_depart_at (t : Z) (e : Visible) : Visible :=
  {| src := src e; row := row e; e_time := e_time e; e_raw := e_raw e; flags := flags e;
     dwell_until := dwell_until e; played := played e;
     last_delta := last_delta e; post_depart_at := Some t |}.

Definition set_played (p : Played) (e : Visible) : Visible :=
  {| src := src e; row := row e; e_time := e_time e; e_raw := e_raw e; flags := flags e;
     dwell_until := dwell_until e; played := p;
     last_delta := last_delta e; post_depart_at := post_depart_at e |}.

Definition set_last_delta (d : Z) (e : Visible) : Visible :=
  {| src := src e; row := row e; e_time := e_time e; e_raw := e_raw e; flags := flags e;
     dwell_until := dwell_until e; played := played e;
     last_delta := Some d; post_depart_at := post_depart_at e |}.

(** [if hasattr(self, "on_event") and callable(self.on_event):
    self.on_event(key)] *)
Definition emit (hook : bool) (key : string) : list string :=
  if hook then [key] else [].

(** What one round of the [for] loop produces: the entry as mutated,
    whether its index went to [to_remove], the notice banner and the keys
    handed to [on_event]. *)
Record Outcome : Type := {
  o_entry : Visible;
  o_removed : bool;
  o_notice : NoticeState;
  o_events : list string
}.

(** The three-tier ladder shared by terminal and regular entries. *)
Definition ladder (L : Limits) (delta : Z) (delayed : bool)
    (stopped arrived approaching : string) : string :=
  if delta <=? secs (stop_before L) then stopped
  else if delta <=? secs (arrival_sound_before L) then arrived
  else if delta <=? secs (pre77_sound_before L) then approaching
  else if delayed then st_delayed else st_on_time.

(** The [# sounds] block. *)
Definition sounds (L : Limits) (hook is_pass : bool) (last : option Z) (delta : Z)
    (p : Played) : Played * list string :=
  match last with
  | None => (p, [])
  | Some last_delta =>
      let '(p1, ev1) :=
        if (secs (arrival_sound_before L) <? last_delta)
           && (delta <=? secs (arrival_sound_before L)) && negb (arrival p)
        then ({| pre77 := pre77 p; arrival := true; departed := departed p; pass := pass p |},
              emit hook "arrival")
        else (p, []) in
      let '(p2, ev2) :=
        if (secs (pre77_sound_before L) <? last_delta)
           && (delta <=? secs (pre77_sound_before L)) && negb (pre77 p1)
        then ({| pre77 := true; arrival := arrival p1; departed := departed p1; pass := pass p1 |},
              emit hook "pre30")
        else (p1, []) in
      let '(p3, ev3) :=
        if is_pass && (0 <? last_delta) && (delta <=? 0) && negb (pass p2)
        then ({| pre77 := pre77 p2; arrival := arrival p2; departed := departed p2; pass := true |},
              emit hook "pass")
        else (p2, []) in
      (p3, ev1 ++ ev2 ++ ev3)
  end.

(** The part of the loop body below the removal policy, for an entry that
    stays this tick. *)
Definition evaluate (L : Limits) (hook : bool) (now delta : Z) (nt : NoticeState)
    (entry : Visible) : Outcome :=
  let is_terminal := terminal_here (flags entry) in
  let is_pass := pass_through (flags entry) in
  let delayed := is_delayed (flags entry) in
  if 0 <=? delta then
    let '(entry1, nt1) :=
      if is_terminal then
        (update_status (ladder L delta delayed st_terminal_stopped st_terminal_arrived
                          st_terminal_approaching) entry, nt)
      else if is_pass then
        if delta <=? secs (pre77_sound_before L)
        then (update_status st_approaching entry, notice_on (row entry))
        else (update_status (if delayed then st_delayed else st_on_time) entry, notice_off)
      else
        (update_status (ladder L delta delayed st_stopped st_arrived st_approaching) entry, nt) in
    let '(p, ev) := sounds L hook is_pass (last_delta entry) delta (played entry1) in
    {| o_entry := set_last_delta delta (set_played p entry1);
       o_removed := false; o_notice := nt1; o_events := ev |}
  else if is_terminal then
    let status :=
      match dwell_until entry with
      | Some dwell => if dwell <=? now then st_departed else st_terminal_stopped
      | None => st_terminal_stopped
      end in
    {| o_entry := set_last_delta delta (update_status status entry);
       o_removed := false; o_notice := nt; o_events := [] |}
  else if is_pass then
    {| o_entry := set_last_delta delta (update_status st_passed entry);
       o_removed := false;
       o_notice := if - secs (pass_remove_after L) <? delta
                   then notice_on (row entry) else notice_off;
       o_events := [] |}
  else
    let entry1 := update_status st_departed entry in
    if departed (played entry1) then
      {| o_entry := set_last_delta delta entry1;
         o_removed := false; o_notice := nt; o_events := [] |}
    else
      {| o_entry :=
           set_last_delta delta
             (set_played {| pre77 := pre77 (played entry1); arrival := arrival (played entry1);
                            departed := true; pass := pass (played entry1) |} entry1);
         o_removed := false; o_notice := nt; o_events := emit hook "depart" |}.

(** [to_remove.append(idx); continue] *)
Definition removed (nt : NoticeState) (entry : Visible) : Outcome :=
  {| o_entry := entry; o_removed := true; o_notice := nt; o_events := [] |}.

(** One round of the [for idx, entry in enumerate(self._model)] loop. *)
Definition refresh_entry (L : Limits) (hook : bool) (now : Z) (nt : NoticeState)
    (entry : Visible) : Outcome :=
  let dep_time := e_time entry in
  let is_terminal := terminal_here (flags entry) in
  let is_pass := pass_through (flags entry) in
  let delta := dep_time - now in
  let entry1 :=
    if is_terminal && bool_decide (dwell_until entry = None) && (delta <=? 0)
    then set_dwell_until (dep_time + secs 60) entry
    else entry in
  match (if is_terminal then dwell_until entry1 else None) with
  | Some dwell =>
      if dwell <=? now then
        let entry2 :=
          match post_depart_at entry1 with
          | None => set_post_depart_at now entry1
          | Some _ => entry1
          end in
        let post_elapsed := now - default now (post_depart_at entry2) in
        if secs (remove_after L) <=? post_elapsed
        then removed nt entry2
        else evaluate L hook now delta nt entry2
      else evaluate L hook now delta nt entry1
  | None =>
      if (is_pass && (delta <=? - secs (pass_remove_after L)))
         || (negb is_pass && (delta <=? - secs (remove_after L)))
      then removed nt entry1
      else evaluate L hook now delta nt entry1
  end.

(** The whole [for] loop: the entries as mutated, [to_remove], the notice
    banner after the last round and the keys emitted, in order. *)
Fixpoint refresh_loop (L : Limits) (hook : bool) (now : Z) (idx : nat)
    (model : list Visible) (nt : NoticeState)
    : list Visible * list nat * NoticeState * list string :=
  match model with
  | [] => ([], [], nt, [])
  | entry :: rest =>
      let o := refresh_entry L hook now nt entry in
      let '(rest', to_remove, nt', ev) := refresh_loop L hook now (S idx) rest (o_notice o) in
      (o_entry o :: rest',
       (if o_removed o then [idx] else []) ++ to_remove,
       nt',
       o_events o ++ ev)
  end.

(** [for i in reversed(to_remove): del self._model[i]] *)
Definition delete_all (to_remove : list nat) (model : list Visible) : list Visible :=
  foldl (fun m i => delete i m) model (rev to_remove).

(** The result of a tick: the board, the keys handed to [on_event], the
    schedule positions promoted by the closing [_fill_up_to_six] and the
    exception raised, if any.  A threshold that [int] refuses raises
    before any row is looked at; the fill step raises after the rows were
    evaluated and removed. *)
Definition _refresh_statuses (now now_fill : Z) (b : Board)
    : Board * list string * list nat * option exn :=
  match _thresholds b with
  | None => (b, [], [], None)
  | Some th =>
      match read_limits th with
      | Raise e => (b, [], [], Some e)
      | Ok L =>
          let '(model1, to_remove, nt, ev) :=
            refresh_loop L (on_event b) now 0 (_model b) (notice_label b, _notice_blink b) in
          let '(b', added, e) :=
            _fill_up_to_six now_fill
              {| _all_items := _all_items b; _model := delete_all to_remove model1;
                 notice_label := fst nt; _notice_blink := snd nt;
                 _thresholds := _thresholds b; on_event := on_event b |} in
          (b', ev, added, e)
      end
  end.

(** ** Runs of the engine *)

(** The board of [DepartureBoard.__init__]. *)
Definition init_board : Board :=
  {| _all_items := []; _model := []; notice_label := ""; _notice_blink := false;
     _thresholds := None; on_event := false |}.

(** What a collaborator does to the board: it assigns [_thresholds] and
    [on_event] (as [MainWindow.__init__] does), loads a schedule, or lets
    the status timer fire.  A step that raises leaves the board as the
    exception found it, and the run goes on from there. *)
Inductive step : Type :=
  | Configure (th : option pyval) (hook : bool)
  | Load (clock : nat -> Z) (now_fill : Z) (departures : list pyval)
  | Tick (now now_fill : Z).

Definition exec_step (b : Board) (st : step) : Board :=
  match st with
  | Configure th hook =>
      {| _all_items := _all_items b; _model := _model b;
         notice_label := notice_label b; _notice_blink := _notice_blink b;
         _thresholds := th; on_event := hook |}
  | Load clock now_fill departures => (set_departures clock now_fill departures b).1.1
  | Tick now now_fill => (_refresh_statuses now now_fill b).1.1.1
  end.

Definition exec (steps : list step) (b : Board) : Board := foldl exec_step b steps.

(** The schedule items shown in the window, by position in the schedule. *)
Definition window (b : Board) : list nat := src <$> _model b.

(** Ticks on one schedule: the board reached and the positions promoted,
    appended to [log]. *)
Fixpoint run_ticks (ticks : list (Z * Z)) (b : Board) (log : list nat) : Board * list nat :=
  match ticks with
  | [] => (b, log)
  | (now, now_fill) :: rest =>
      let '(b', _, added, _) := _refresh_statuses now now_fill b in
      run_ticks rest b' (log ++ added)
  end.

(** The keys emitted by a run of ticks, tick by tick. *)
Fixpoint run_events (ticks : list (Z * Z)) (b : Board) : list (list string) :=
  match ticks with
  | [] => []
  | (now, now_fill) :: rest =>
      let '(b', ev, _, _) := _refresh_statuses now now_fill b in
      ev :: run_events rest b'
  end.

(** The exceptions raised by a run of ticks, tick by tick. *)
Fixpoint run_raised (ticks : list (Z * Z)) (b : Board) : list (option exn) :=
  match ticks with
  | [] => []
  | (now, now_fill) :: rest =>
      let '(b', _, _, e) := _refresh_statuses now now_fill b in
      e :: run_raised rest b'
  end.

(** Consecutive rounds of the tick loop on one entry, until it is
    removed. *)
Fixpoint entry_run (L : Limits) (hook : bool) (nows : list Z) (nt : NoticeState)
    (entry : Visible) : list Outcome :=
  match nows with
  | [] => []
  | now :: rest =>
      let o := refresh_entry L hook now nt entry in
      o :: (if o_removed o then [] else entry_run L hook rest (o_notice o) (o_entry o))
  end.

(** ** The fill step in one pass

    A second description of what [_fill_up_to_six] does, to compare the
    loop with: walk the schedule once from the front and promote the
    first [n] eligible items, stopping short at an eligible item whose
    row raises. *)
Fixpoint take_eligible (n : nat) (now : Z) (i : nat) (items : list SchedItem)
    : list SchedItem * list Visible * option exn :=
  match items with
  | [] => ([], [], None)
  | it :: rest =>
      match n with
      | O => (items, [], None)
      | S n' =>
          if eligible now it then
            match _create_row_from_item now (raw it) with
            | Raise e => (items, [], Some e)
            | Ok r =>
                let '(rest', vs, e) := take_eligible n' now (S i) rest in
                (set_shown it :: rest', new_entry i it r :: vs, e)
            end
          else
            let '(rest', vs, e) := take_eligible n now (S i) rest in
            (it :: rest', vs, e)
      end
  end.

(** ** Predicates used in the statements *)

(** The order [_all_items] is sorted by. *)
Definition by_time (a b : SchedItem) : Prop := time a <= time b.

(** A round of the tick loop changes the status label and the
    bookkeeping fields of an entry, never what it stands for. *)
Definition same_entry (e e' : Visible) : Prop :=
  src e' = src e /\ e_time e' = e_time e /\ flags e' = flags e /\
  e_raw e' = e_raw e /\ platform_label (row e') = platform_label (row e).

(** What holds of a board and of the positions promoted since its
    schedule was loaded ([log]), all through the life of that schedule. *)
Definition lifetime_inv (b : Board) (log : list nat) : Prop :=
  NoDup log /\
  (forall j it, _all_items b !! j = Some it -> (shown it = true <-> j ∈ log)) /\
  (forall j, j ∈ window b -> j ∈ log) /\
  NoDup (window b) /\
  (length (_model b) <= 6)%nat.

(** A downward crossing of [th] between the previous tick and this one:
    [last_delta > th >= delta], false on an entry's first tick. *)
Definition crossed (th : Z) (last : option Z) (delta : Z) : bool :=
  match last with
  | Some last_delta => (th <? last_delta) && (delta <=? th)
  | None => false
  end.

(** The flag of [played] that guards a key handed to [on_event]. *)
Definition played_flag (key : string) (p : Played) : bool :=
  if String.eqb key "arrival" then arrival p
  else if String.eqb key "pre30" then pre77 p
  else if String.eqb key "pass" then pass p
  else if String.eqb key "depart" then departed p
  else false.

(** When the tick loop, on an entry it keeps, takes the branch that
    emits [key] (the [played] flag aside). *)
Definition cue_trigger (L : Limits) (fl : Flags) (key : string) (last : option Z)
    (delta : Z) : bool :=
  if String.eqb key "arrival" then
    (0 <=? delta) && crossed (secs (arrival_sound_before L)) last delta
  else if String.eqb key "pre30" then
    (0 <=? delta) && crossed (secs (pre77_sound_before L)) last delta
  else if String.eqb key "pass" then
    (0 <=? delta) && pass_through fl && crossed 0 last delta
  else if String.eqb key "depart" then
    (delta <? 0) && negb (terminal_here fl) && negb (pass_through fl)
  else false.

(** The keys the engine hands to [on_event]. *)
Definition cue_keys : list string := ["arrival"; "pre30"; "pass"; "depart"].

(** The [last_delta] an entry carries into tick [k] of a run over
    [nows]: its own at the first tick, afterwards the delta of the tick
    before. *)
Definition prev_delta (e : Visible) (nows : list Z) (k : nat) : option Z :=
  match k with
  | O => last_delta e
  | S j => (fun now => e_time e - now) <$> nows !! j
  end.

(** The record is a mapping. *)
Definition dict_of (item : pyval) : option (gmap string pyval) :=
  match item with
  | PDict d => Some d
  | _ => None
  end.

(** ** Boards and records used in the scenarios *)

(** The thresholds [MainWindow.__init__] hands to the board when
    [config.json] has none. *)
Definition default_thresholds : gmap string pyval :=
  list_to_map [("approach_before_secs", PInt 77); ("arrival_before_secs", PInt 57);
               ("stop_before_secs", PInt 40); ("remove_after_secs", PInt 10);
               ("pass_before_secs", PInt 20); ("pass_remove_after_secs", PInt 10)].

(** What [read_limits] makes of them (lemma [read_default_thresholds]). *)
Definition default_limits : Limits :=
  {| pre77_sound_before := 77; arrival_sound_before := 57; stop_before := 40;
     remove_after := 10; pass_before := 20; pass_remove_after := 10 |}.

(** The board once [MainWindow.__init__] has installed [on_event] and
    [_thresholds]. *)
Definition main_board : Board :=
  {| _all_items := []; _model := []; notice_label := ""; _notice_blink := false;
     _thresholds := Some (PDict default_thresholds); on_event := true |}.

(** The instant [h:m:s] of the day the clock starts in. *)
Definition hms (h m s : Z) : Z := secs (h * 3600 + m * 60 + s).

Definition record (fields : list (string * pyval)) : pyval := PDict (list_to_map fields).

(** The row of a record that names no platform. *)
Definition plain_row : DepartureRow := {| platform_label := "-"; status_label := "定刻" |}.

(** A tick whose two clock reads give the same instant. *)
Definition at_ (now : Z) : Z * Z := (now, now).

(** Loading [departures] at the instant [now]. *)
Definition load_at (now : Z) (departures : list pyval) (b : Board) : Board :=
  (set_departures (fun _ => now) now departures b).1.1.

(** The status labels of the window. *)
Definition statuses (b : Board) : list string := (fun e => status_label (row e)) <$> _model b.

(** A regular departure at 08:00, loaded at 07:50. *)
Definition board_0800 : Board :=
  load_at (hms 7 50 0) [record [("time", PStr "08:00"); ("delay_secs", PInt 0)]] main_board.

(** A pass-through train at 10:00 on platform 2, loaded at 09:50. *)
Definition board_pass_1000 : Board :=
  load_at (hms 9 50 0)
    [record [("time", PStr "10:00"); ("pass_through", PBool true); ("platform", PStr "2")]]
    main_board.

(** A train that terminates here at 09:00, loaded at 08:50. *)
Definition board_terminal_0900 : Board :=
  load_at (hms 8 50 0) [record [("time", PStr "09:00"); ("type", PStr "回送")]] main_board.

(** Eight departures five minutes apart from 08:00, given out of
    order. *)
Definition eight_departures : list pyval :=
  (fun hhmm => record [("time", PStr hhmm)]) <$>
    ["08:20"; "08:00"; "08:35"; "08:05"; "08:10"; "08:30"; "08:15"; "08:25"].

(** The cue identifiers as the specification lists them. *)
Definition spec_cue_ids : list string := ["arrival"; "pre_approach"; "departed"; "pass"].

(** The status labels of the window after each tick of a run. *)
Fixpoint run_statuses (ticks : list (Z * Z)) (b : Board) : list (list string) :=
  match ticks with
  | [] => []
  | (now, now_fill) :: rest =>
      let b' := (_refresh_statuses now now_fill b).1.1.1 in
      statuses b' :: run_statuses rest b'
  end.

(** [n] ticks one second apart, the first at [start]. *)
Definition every_second (start : Z) (n : nat) : list (Z * Z) :=
  (fun k => at_ (start + secs (Z.of_nat k))) <$> seq 0 n.

(** [self.board._thresholds = thresholds] *)
Definition set_thresholds (th : pyval) (b : Board) : Board :=
  {| _all_items := _all_items b; _model := _model b;
     notice_label := notice_label b; _notice_blink := _notice_blink b;
     _thresholds := Some th; on_event := on_event b |}.

(** What a collaborator can see of the board: schedule, window (with
    every row's status and bookkeeping) and notice banner. *)
Definition observable (b : Board) : list SchedItem * list Visible * string * bool :=
  (_all_items b, _model b, notice_label b, _notice_blink b).

(** The thresholds a tick consults. *)
Definition consulted (L : Limits) : Z * Z * Z * Z * Z :=
  (pre77_sound_before L, arrival_sound_before L, stop_before L, remove_after L,
   pass_remove_after L).

(** Two readings of the thresholds that a tick cannot tell apart: both
    raise the same exception, or both give limits that agree on the
    thresholds consulted. *)
Definition limits_agree (r1 r2 : result Limits) : Prop :=
  match r1, r2 with
  | Ok L1, Ok L2 => consulted L1 = consulted L2
  | Raise e1, Raise e2 => e1 = e2
  | _, _ => False
  end.

(** Everything a run of ticks lets a collaborator see: the keys handed
    to [on_event], the statuses after every tick, the exceptions raised,
    the board reached and the promotions. *)
Definition run_view (ticks : list (Z * Z)) (b : Board) (log : list nat) :=
  (run_events ticks b, run_statuses ticks b, run_raised ticks b,
   observable (run_ticks ticks b log).1, (run_ticks ticks b log).2).

(** * Properties *)

(** ** Conversions *)

Lemma read_default_thresholds : read_limits (PDict default_thresholds) = Ok default_limits.
Proof. reflexivity. Qed.

(** Whether the time of a record can be read does not depend on the
    clock. *)
Lemma parse_time_clock now now' hhmm :
  match _parse_today_or_tomorrow_time now hhmm, _parse_today_or_tomorrow_time now' hhmm with
  | Ok _, Ok _ => True
  | Raise e, Raise e' => e = e'
  | _, _ => False
  end.
Proof.
  unfold _parse_today_or_tomorrow_time, replace_hm.
  destruct (parse_hhmm hhmm) as [[hour minute]|e]; cbn; last done.
  destruct (negb _); cbn; first done.
  destruct (_ && _); cbn; done.
Qed.

(** Whether a row can be built does not depend on the clock either. *)
Lemma create_row_clock now now' item :
  _create_row_from_item now item = _create_row_from_item now' item.
Proof.
  unfold _create_row_from_item.
  destruct (qt_label (dict_get item "time" _)); cbn; last done.
  destruct (qt_label (dict_get item "destination" _)); cbn; last done.
  destruct (qt_label (dict_get item "line" _)); cbn; last done.
  destruct (qt_label (dict_get item "platform" _)); cbn; last done.
  destruct (stops_label _); cbn; last done.
  pose proof (parse_time_clock now now' (dict_get item "time" (PStr "00:00"))) as H.
  destruct (_parse_today_or_tomorrow_time now _), (_parse_today_or_tomorrow_time now' _);
    cbn; try done. by subst.
Qed.

(** ** The fill step *)

Lemma take_eligible_0 now i items : take_eligible 0 now i items = (items, [], None).
Proof. by destruct items. Qed.

Lemma take_eligible_skip n now i it rest :
  eligible now it = false ->
  take_eligible (S n) now i (it :: rest) =
  (it :: (take_eligible (S n) now (S i) rest).1.1,
   (take_eligible (S n) now (S i) rest).1.2,
   (take_eligible (S n) now (S i) rest).2).
Proof. intros E. simpl. rewrite E. by destruct (take_eligible _ _ _ _) as [[? ?] ?]. Qed.

Lemma take_eligible_take n now i it rest r :
  eligible now it = true -> _create_row_from_item now (raw it) = Ok r ->
  take_eligible (S n) now i (it :: rest) =
  (set_shown it :: (take_eligible n now (S i) rest).1.1,
   new_entry i it r :: (take_eligible n now (S i) rest).1.2,
   (take_eligible n now (S i) rest).2).
Proof.
  intros E R. simpl. rewrite E, R. by destruct (take_eligible _ _ _ _) as [[? ?] ?].
Qed.

Lemma take_eligible_raise n now i it rest e :
  eligible now it = true -> _create_row_from_item now (raw it) = Raise e ->
  take_eligible (S n) now i (it :: rest) = (it :: rest, [], Some e).
Proof. intros E R. simpl. by rewrite E, R. Qed.

(** The cases of one step of the pass, each with its equation applied. *)
Ltac pass_cases now it :=
  let E := fresh "E" in
  let R := fresh "R" in
  destruct (eligible now it) eqn:E;
    [destruct (_create_row_from_item now (raw it)) as [?r|?e] eqn:R;
       [rewrite (take_eligible_take _ _ _ _ _ _ E R)
       |rewrite (take_eligible_raise _ _ _ _ _ _ E R)]
    |rewrite (take_eligible_skip _ _ _ _ _ E)].

Lemma eligible_set_shown now it : eligible now (set_shown it) = false.
Proof. done. Qed.

Lemma find_next_None now i items :
  find_next now i items = None -> forall n, take_eligible n now i items = (items, [], None).
Proof.
  revert i. induction items as [|it rest IH]; intros i H n; first done.
  simpl in H. destruct (eligible now it) eqn:E; first done.
  destruct n; first done.
  rewrite take_eligible_skip, (IH _ H) by done. done.
Qed.

Lemma find_next_Some now k items i it :
  find_next now k items = Some (i, it) ->
  (k <= i)%nat /\ items !! (i - k)%nat = Some it /\ eligible now it = true /\
  forall n,
    take_eligible (S n) now k items =
    match _create_row_from_item now (raw it) with
    | Raise e => (items, [], Some e)
    | Ok r =>
        ((take_eligible n now k (alter set_shown (i - k)%nat items)).1.1,
         new_entry i it r :: (take_eligible n now k (alter set_shown (i - k)%nat items)).1.2,
         (take_eligible n now k (alter set_shown (i - k)%nat items)).2)
    end.
Proof.
  revert k. induction items as [|x rest IH]; intros k H; first done.
  simpl in H. destruct (eligible now x) eqn:E.
  - inversion H; subst. replace (i - i)%nat with 0%nat by lia.
    split_and!; [lia|done|done|].
    intros n. destruct (_create_row_from_item now (raw it)) as [r|e] eqn:R.
    + rewrite (take_eligible_take _ _ _ _ _ _ E R).
      change (alter set_shown 0%nat (it :: rest)) with (set_shown it :: rest).
      destruct n; first by rewrite !take_eligible_0.
      rewrite (take_eligible_skip _ _ _ (set_shown it)) by apply eligible_set_shown. done.
    + by rewrite (take_eligible_raise _ _ _ _ _ _ E R).
  - destruct (IH _ H) as (Hle & Hl & He & Hn).
    replace (i - k)%nat with (S (i - S k)) by lia.
    split_and!; [lia|done|done|].
    intros n. rewrite take_eligible_skip, Hn by done.
    destruct (_create_row_from_item now (raw it)) as [r|e]; last done.
    change (alter set_shown (S (i - S k)) (x :: rest))
      with (x :: alter set_shown (i - S k)%nat rest).
    destruct n; first by rewrite !take_eligible_0.
    rewrite (take_eligible_skip _ _ _ x) by done. done.
Qed.

Lemma fill_loop_take_eligible fuel now items model :
  (6 - length model <= fuel)%nat ->
  fill_loop fuel now items model =
  ((take_eligible (6 - length model) now 0 items).1.1,
   model ++ (take_eligible (6 - length model) now 0 items).1.2,
   src <$> (take_eligible (6 - length model) now 0 items).1.2,
   (take_eligible (6 - length model) now 0 items).2).
Proof.
  revert items model. induction fuel as [|fuel IH]; intros items model Hf.
  - replace (6 - length model)%nat with 0%nat by lia.
    rewrite take_eligible_0. simpl. by rewrite app_nil_r.
  - simpl. destruct (length model <? 6)%nat eqn:Hlen.
    + apply Nat.ltb_lt in Hlen.
      destruct (find_next now 0 items) as [[i it]|] eqn:Hfind.
      * destruct (find_next_Some _ _ _ _ _ Hfind) as (_ & _ & _ & Hn).
        rewrite Nat.sub_0_r in Hn.
        replace (6 - length model)%nat with (S (6 - (length model + 1))) by lia.
        rewrite Hn.
        destruct (_create_row_from_item now (raw it)) as [r|e].
        -- rewrite IH by (rewrite length_app; simpl; lia).
           rewrite length_app. simpl. by rewrite <- app_assoc.
        -- simpl. by rewrite app_nil_r.
      * rewrite (find_next_None _ _ _ Hfind). simpl. by rewrite app_nil_r.
    + apply Nat.ltb_ge in Hlen.
      replace (6 - length model)%nat with 0%nat by lia.
      rewrite take_eligible_0. simpl. by rewrite app_nil_r.
Qed.

(** Facts about the one-pass description. *)

Lemma take_eligible_src_lb n now i items s :
  s ∈ src <$> (take_eligible n now i items).1.2 -> (i <= s)%nat.
Proof.
  revert n i. induction items as [|it rest IH]; intros n i; first by inversion 1.
  destruct n; first by inversion 1.
  pass_cases now it; simpl.
  - intros [->|H]%elem_of_cons; first lia. apply IH in H. lia.
  - by inversion 1.
  - intros H%IH. lia.
Qed.

Lemma take_eligible_length_items n now i items :
  length (take_eligible n now i items).1.1 = length items.
Proof.
  revert n i. induction items as [|it rest IH]; intros n i; first done.
  destruct n; first done.
  pass_cases now it; simpl; by rewrite ?IH.
Qed.

Lemma take_eligible_length n now i items :
  (length (take_eligible n now i items).1.2 <= n)%nat.
Proof.
  revert n i. induction items as [|it rest IH]; intros n i; first (simpl; lia).
  destruct n; first (simpl; lia).
  pass_cases now it; simpl.
  - specialize (IH n (S i)). lia.
  - lia.
  - apply IH.
Qed.

Lemma take_eligible_NoDup n now i items :
  NoDup (src <$> (take_eligible n now i items).1.2).
Proof.
  revert n i. induction items as [|it rest IH]; intros n i; first by constructor.
  destruct n; first by constructor.
  pass_cases now it; simpl.
  - constructor; last apply IH.
    intros H%take_eligible_src_lb. lia.
  - constructor.
  - apply IH.
Qed.

(** A promoted position held an eligible item whose row was built, and
    that item and that row are what the new window entry was made
    from. *)
Lemma take_eligible_promoted n now i items v :
  v ∈ (take_eligible n now i items).1.2 ->
  exists it r, items !! (src v - i)%nat = Some it /\ eligible now it = true /\
               _create_row_from_item now (raw it) = Ok r /\
               (i <= src v)%nat /\ v = new_entry (src v) it r.
Proof.
  revert n i. induction items as [|it rest IH]; intros n i; first by inversion 1.
  destruct n; first by inversion 1.
  pass_cases now it; simpl.
  - intros [->|H]%elem_of_cons.
    + exists it, r. simpl. replace (i - i)%nat with 0%nat by lia. done.
    + destruct (IH _ _ H) as (it' & r' & Hl & He & Hr & Hle & Hv).
      exists it', r'. replace (src v - i)%nat with (S (src v - S i)) by lia.
      split_and!; [done|done|done|lia|done].
  - by inversion 1.
  - intros H. destruct (IH _ _ H) as (it' & r' & Hl & He & Hr & Hle & Hv).
    exists it', r'. replace (src v - i)%nat with (S (src v - S i)) by lia.
    split_and!; [done|done|done|lia|done].
Qed.

(** The schedule after the pass: the same items, the promoted ones now
    marked shown. *)
Lemma take_eligible_items n now i items j :
  (take_eligible n now i items).1.1 !! j =
  (fun it => if bool_decide ((i + j)%nat ∈ src <$> (take_eligible n now i items).1.2)
             then set_shown it else it) <$> items !! j.
Proof.
  revert n i j. induction items as [|it rest IH]; intros n i j; first done.
  destruct n.
  { rewrite take_eligible_0. cbn [fst snd fmap list_fmap].
    by destruct ((it :: rest) !! j). }
  pass_cases now it; cbn [fst snd].
  - destruct j as [|j]; simpl.
    + rewrite bool_decide_eq_true_2; first done.
      rewrite Nat.add_0_r. apply elem_of_cons. by left.
    + rewrite IH.
      destruct (rest !! j); simpl; last done.
      f_equal. erewrite bool_decide_ext; first done.
      rewrite elem_of_cons.
      replace (i + S j)%nat with (S i + j)%nat by lia.
      split; [intros ?; by right|intros [?|?]; [lia|done]].
  - cbn [fmap list_fmap]. by destruct ((it :: rest) !! j).
  - destruct j as [|j]; simpl.
    + rewrite bool_decide_eq_false_2; first done.
      intros H%take_eligible_src_lb. lia.
    + rewrite IH. replace (S i + j)%nat with (i + S j)%nat by lia. done.
Qed.





(** The times of the promoted entries are those of the first eligible
    items, in schedule order: all of the first [n] unless the pass
    raised. *)
Lemma take_eligible_times n now i items :
  let new := (take_eligible n now i items).1.2 in
  e_time <$> new =
    take (length new) (time <$> filter (fun it => Is_true (eligible now it)) items) /\
  ((take_eligible n now i items).2 = None ->
   e_time <$> new =
     take n (time <$> filter (fun it => Is_true (eligible now it)) items)).
Proof.
  revert n i. induction items as [|it rest IH]; intros n i; first by destruct n.
  destruct n; first done.
  pass_cases now it; cbn [fst snd length].
  - rewrite filter_cons_True by (rewrite E; exact I). simpl.
    destruct (IH n (S i)) as [H1 H2]. split.
    + f_equal. apply H1.
    + intros Hn. f_equal. by apply H2.
  - done.
  - rewrite filter_cons_False by (rewrite E; exact id). apply IH.
Qed.

(** ** The schedule is sorted by effective time *)

Lemma insert_by_time_perm x l : insert_by_time x l ≡ₚ x :: l.
Proof.
  induction l as [|y l IH]; simpl; first done.
  destruct (time x <=? time y); first done.
  rewrite IH. apply Permutation_swap.
Qed.

Lemma sort_by_time_perm l : sort_by_time l ≡ₚ l.
Proof.
  induction l as [|x l IH]; simpl; first done.
  rewrite insert_by_time_perm. by constructor.
Qed.

Lemma insert_by_time_sorted x l :
  StronglySorted by_time l -> StronglySorted by_time (insert_by_time x l).
Proof.
  induction 1 as [|y l Hs IH Hall]; simpl; first by repeat constructor.
  destruct (time x <=? time y) eqn:E.
  - apply Z.leb_le in E. constructor; first by constructor.
    constructor; first done.
    eapply Forall_impl; first exact Hall. unfold by_time. intros; simpl in *; lia.
  - apply Z.leb_gt in E. constructor; first done.
    rewrite insert_by_time_perm. constructor; last done. unfold by_time. lia.
Qed.

Lemma sort_by_time_sorted l : StronglySorted by_time (sort_by_time l).
Proof.
  induction l as [|x l IH]; simpl; first constructor.
  by apply insert_by_time_sorted.
Qed.

(** The sort is stable: items of equal time keep the order they were
    given in, as with [list.sort]. *)
Lemma insert_by_time_stable t x l :
  filter (fun it => time it = t) (insert_by_time x l) =
  filter (fun it => time it = t) (x :: l).
Proof.
  induction l as [|y l IH]; simpl; first done.
  destruct (time x <=? time y) eqn:E; first done.
  apply Z.leb_gt in E.
  rewrite (filter_cons _ y), IH, !(filter_cons _ x), !(filter_cons _ y).
  repeat case_decide; try done; lia.
Qed.

Lemma sort_by_time_stable t l :
  filter (fun it => time it = t) (sort_by_time l) = filter (fun it => time it = t) l.
Proof.
  induction l as [|x l IH]; simpl; first done.
  rewrite insert_by_time_stable, !filter_cons, IH. done.
Qed.

Lemma StronglySorted_sublist {A} (R : relation A) (l1 l2 : list A) :
  l1 `sublist_of` l2 -> StronglySorted R l2 -> StronglySorted R l1.
Proof.
  induction 1 as [|x l1 l2 Hsub IH|x l1 l2 Hsub IH]; intros Hs; first done.
  - apply StronglySorted_inv in Hs as [Hs Hall]. constructor; first by apply IH.
    rewrite Forall_forall in *. intros y Hy. apply Hall.
    by eapply elem_of_sublist.
  - apply StronglySorted_inv in Hs as [Hs _]. by apply IH.
Qed.

Lemma take_eligible_times_sorted n now i items :
  StronglySorted by_time items ->
  StronglySorted Z.le (e_time <$> (take_eligible n now i items).1.2).
Proof.
  intros Hs. destruct (take_eligible_times n now i items) as [-> _].
  eapply StronglySorted_sublist; first apply sublist_take.
  apply (StronglySorted_fmap time by_time); first done.
  eapply StronglySorted_sublist; last exact Hs. apply sublist_filter.
Qed.

(** Marking items shown does not move them. *)
Lemma take_eligible_keeps_times n now i items :
  time <$> (take_eligible n now i items).1.1 = time <$> items.
Proof.
  revert n i. induction items as [|it rest IH]; intros n i; first done.
  destruct n; first done.
  pass_cases now it; cbn [fst fmap list_fmap]; try done; f_equal; apply IH.
Qed.

Lemma take_eligible_keeps_raw n now i items :
  raw <$> (take_eligible n now i items).1.1 = raw <$> items.
Proof.
  revert n i. induction items as [|it rest IH]; intros n i; first done.
  destruct n; first done.
  pass_cases now it; cbn [fst fmap list_fmap]; try done; f_equal; apply IH.
Qed.

Lemma by_time_fmap l :
  StronglySorted by_time l -> StronglySorted Z.le (time <$> l).
Proof. by apply StronglySorted_fmap. Qed.

(** [_fill_up_to_six] written with the one-pass description. *)
Lemma fill_up_to_six_eq now b :
  _fill_up_to_six now b =
  ({| _all_items := (take_eligible (6 - length (_model b)) now 0 (_all_items b)).1.1;
      _model := _model b ++ (take_eligible (6 - length (_model b)) now 0 (_all_items b)).1.2;
      notice_label := notice_label b; _notice_blink := _notice_blink b;
      _thresholds := _thresholds b; on_event := on_event b |},
   src <$> (take_eligible (6 - length (_model b)) now 0 (_all_items b)).1.2,
   (take_eligible (6 - length (_model b)) now 0 (_all_items b)).2).
Proof.
  unfold _fill_up_to_six. rewrite fill_loop_take_eligible by lia. done.
Qed.


Lemma fill_window_bound now b :
  (length (_model b) <= 6)%nat ->
  (length (_model (_fill_up_to_six now b).1.1) <= 6)%nat.
Proof.
  intros H. rewrite fill_up_to_six_eq. cbn [fst _model]. rewrite length_app.
  pose proof (take_eligible_length (6 - length (_model b)) now 0 (_all_items b)). lia.
Qed.

Lemma by_time_of_times l :
  StronglySorted Z.le (time <$> l) -> StronglySorted by_time l.
Proof.
  induction l as [|x l IH]; simpl; first constructor.
  intros [Hs Hall]%StronglySorted_inv. constructor; first by apply IH.
  rewrite Forall_forall in Hall. apply Forall_forall. intros y Hy. apply Hall.
  apply list_elem_of_fmap. by exists y.
Qed.

Lemma fill_keeps_sorted now b :
  StronglySorted by_time (_all_items b) ->
  StronglySorted by_time (_all_items (_fill_up_to_six now b).1.1).
Proof.
  intros Hs. rewrite fill_up_to_six_eq. cbn [fst _all_items].
  apply by_time_of_times. rewrite take_eligible_keeps_times. by apply by_time_fmap.
Qed.

(** ** What a tick leaves alone *)

Lemma evaluate_same_entry L hook now delta nt e :
  same_entry e (o_entry (evaluate L hook now delta nt e)) /\
  o_removed (evaluate L hook now delta nt e) = false.
Proof.
  unfold evaluate, same_entry.
  repeat (case_match; simpl in *; simplify_eq; try done).
Qed.

Lemma refresh_entry_same_entry L hook now nt e :
  same_entry e (o_entry (refresh_entry L hook now nt e)).
Proof.
  unfold refresh_entry, removed.
  repeat (case_match; simpl in *; simplify_eq; try done);
    match goal with
    | |- same_entry _ (o_entry (evaluate ?L ?h ?n ?d ?t ?x)) =>
        destruct (evaluate_same_entry L h n d t x) as [(?&?&?&?&?) _];
        unfold same_entry in *; simpl in *; split_and!; congruence
    end.
Qed.

Lemma refresh_loop_src L hook now idx model nt :
  src <$> (refresh_loop L hook now idx model nt).1.1.1 = src <$> model.
Proof.
  revert idx nt. induction model as [|e rest IH]; intros idx nt; first done.
  simpl. specialize (IH (S idx) (o_notice (refresh_entry L hook now nt e))).
  destruct (refresh_loop _ _ _ _ rest _) as [[[rest' tr] nt'] ev].
  cbn [fst snd fmap list_fmap] in *.
  f_equal; [apply refresh_entry_same_entry|apply IH].
Qed.

Lemma delete_all_foldr to_remove (model : list Visible) :
  delete_all to_remove model = foldr delete model to_remove.
Proof.
  unfold delete_all. induction to_remove as [|i tr IH]; first done.
  simpl. by rewrite foldl_app, IH.
Qed.

Lemma delete_all_sublist to_remove model :
  delete_all to_remove model `sublist_of` model.
Proof. rewrite delete_all_foldr. apply sublist_foldr_delete. Qed.

(** ** The window over the life of a schedule *)

Lemma fill_lifetime_inv now b log :
  lifetime_inv b log ->
  lifetime_inv (_fill_up_to_six now b).1.1 (log ++ (_fill_up_to_six now b).1.2) /\
  window (_fill_up_to_six now b).1.1 = window b ++ (_fill_up_to_six now b).1.2 /\
  (forall j, j ∈ (_fill_up_to_six now b).1.2 -> j ∉ log).
Proof.
  intros (Hnd & Hshown & Hsub & Hndw & Hlen).
  rewrite fill_up_to_six_eq. cbn [fst snd].
  set (T := take_eligible (6 - length (_model b)) now 0 (_all_items b)).
  assert (Hfresh : forall j, j ∈ src <$> T.1.2 -> j ∉ log).
  { intros j (v & -> & Hv)%list_elem_of_fmap Hj.
    destruct (take_eligible_promoted _ _ _ _ _ Hv) as (it & r & Hl & He & _ & _ & _).
    rewrite Nat.sub_0_r in Hl. apply (Hshown _ _ Hl) in Hj.
    unfold eligible in He. rewrite Hj in He. done. }
  assert (Hw : window
      {| _all_items := T.1.1; _model := _model b ++ T.1.2;
         notice_label := notice_label b; _notice_blink := _notice_blink b;
         _thresholds := _thresholds b; on_event := on_event b |}
      = window b ++ (src <$> T.1.2)).
  { unfold window. simpl. by rewrite fmap_app. }
  split_and!; [| |..]; try done.
  unfold lifetime_inv. rewrite Hw. cbn [_all_items _model].
  split_and!.
  - apply NoDup_app. split_and!; [done| |apply take_eligible_NoDup].
    intros j Hj Hj'. by apply (Hfresh j).
  - intros j it' Hl. unfold T in Hl. rewrite take_eligible_items in Hl.
    destruct (_all_items b !! j) as [it|] eqn:Hit; last done.
    simpl in Hl. rewrite elem_of_app. specialize (Hshown j it Hit).
    case_bool_decide as Hin; simplify_eq; simpl.
    + split; [by right|done].
    + rewrite Hshown. split; [by left|]. intros [?|?]; done.
  - intros j [Hj|Hj]%elem_of_app; apply elem_of_app; [left; by apply Hsub|by right].
  - apply NoDup_app. split_and!; [done| |apply take_eligible_NoDup].
    intros j Hj Hj'. apply (Hfresh j Hj'). by apply Hsub.
  - rewrite length_app.
    pose proof (take_eligible_length (6 - length (_model b)) now 0 (_all_items b)).
    fold T in H. lia.
Qed.

Lemma sublist_lifetime_inv b model' log :
  lifetime_inv b log ->
  src <$> model' `sublist_of` window b ->
  forall nl nb,
    lifetime_inv {| _all_items := _all_items b; _model := model';
                    notice_label := nl; _notice_blink := nb;
                    _thresholds := _thresholds b; on_event := on_event b |} log.
Proof.
  intros (Hnd & Hshown & Hsub & Hndw & Hlen) Hs nl nb.
  unfold lifetime_inv, window. cbn [_all_items _model].
  split_and!; [done|done| | |].
  - intros j Hj. apply Hsub. by eapply elem_of_sublist.
  - by eapply sublist_NoDup.
  - apply sublist_length in Hs. rewrite !length_fmap in Hs. unfold window in Hs.
    rewrite length_fmap in Hs. lia.
Qed.

Lemma tick_window_sublist L hook now model nt :
  src <$> delete_all (refresh_loop L hook now 0 model nt).1.1.2
            (refresh_loop L hook now 0 model nt).1.1.1
  `sublist_of` src <$> model.
Proof.
  rewrite <- (refresh_loop_src L hook now 0 model nt).
  apply fmap_sublist, delete_all_sublist.
Qed.

Lemma tick_lifetime_inv now now_fill b log :
  lifetime_inv b log ->
  lifetime_inv (_refresh_statuses now now_fill b).1.1.1
               (log ++ (_refresh_statuses now now_fill b).1.2) /\
  (forall j, j ∈ window (_refresh_statuses now now_fill b).1.1.1 ->
             j ∈ window b \/ j ∈ (_refresh_statuses now now_fill b).1.2) /\
  (forall j, j ∈ (_refresh_statuses now now_fill b).1.2 -> j ∉ log).
Proof.
  intros Hinv. unfold _refresh_statuses.
  destruct (_thresholds b) as [th|] eqn:Hth; cbn [fst snd].
  2:{ rewrite app_nil_r. split_and!; [done|by left|by inversion 1]. }
  destruct (read_limits th) as [L|e0]; cbn [fst snd].
  2:{ rewrite app_nil_r. split_and!; [done|by left|by inversion 1]. }
  pose proof (tick_window_sublist L (on_event b) now (_model b)
                (notice_label b, _notice_blink b)) as Hsl.
  destruct (refresh_loop _ _ _ _ _ _) as [[[model1 tr] nt] ev]. cbn [fst snd] in Hsl.
  match goal with |- context [_fill_up_to_six now_fill ?b1] => set (bm := b1) end.
  assert (Hm : lifetime_inv bm log).
  { unfold bm. rewrite <- Hth. by apply sublist_lifetime_inv. }
  destruct (fill_lifetime_inv now_fill bm log Hm) as (Hinv' & Hw & Hfresh).
  destruct (_fill_up_to_six now_fill bm) as [[b' added] e]. cbn [fst snd] in *.
  split_and!; [done| |done].
  intros j Hj. rewrite Hw in Hj. apply elem_of_app in Hj as [Hj|Hj]; [left|by right].
  unfold bm, window in Hj. cbn [_model] in Hj. by eapply elem_of_sublist.
Qed.

Lemma schedule_item_Ok now item it :
  schedule_item now item = Ok it ->
  exists d t n,
    item = PDict d /\ raw it = d /\ shown it = false /\
    _parse_today_or_tomorrow_time now (dict_get d "time" (PStr "00:00")) = Ok t /\
    py_int (py_or (dict_get d "delay_secs" (PInt 0)) (PInt 0)) = Ok n /\
    Z.abs n <= 1000000000 /\ time it = t + secs n.
Proof.
  destruct item as [| | | | | |d]; try done. unfold schedule_item.
  destruct (_parse_today_or_tomorrow_time _ _) as [t|] eqn:Ht; last done.
  cbn [mbind result_bind]. destruct (py_int _) as [n|] eqn:Hi; last done.
  cbn [mbind result_bind]. unfold add_seconds.
  destruct (datetime_span <=? Z.abs n); first done.
  destruct (Z.abs n <=? 1000000000) eqn:Hn; last done.
  cbn [mbind result_bind]. intros [= <-]. exists d, t, n. apply Z.leb_le in Hn.
  split_and!; done.
Qed.

Lemma schedule_item_unshown now item it :
  schedule_item now item = Ok it -> shown it = false.
Proof. intros (?&?&?&?&?&?&?)%schedule_item_Ok. done. Qed.

Lemma build_items_unshown clock k departures acc items e :
  build_items clock k departures acc = (items, e) ->
  Forall (fun it => shown it = false) acc ->
  Forall (fun it => shown it = false) items.
Proof.
  revert k acc. induction departures as [|item rest IH]; intros k acc; simpl.
  - by intros [= <- <-].
  - destruct (schedule_item (clock k) item) as [it|] eqn:Hit.
    + intros H Hacc. eapply IH; first done.
      apply Forall_app. split; first done.
      constructor; last done. by eapply schedule_item_unshown.
    + by intros [= <- <-].
Qed.

(** A schedule that was built, and the window the fill step made of it
    (whether or not the fill step raised on the way). *)
Lemma load_built clock now_fill departures b0 items :
  build_items clock 0 departures [] = (items, None) ->
  let r := set_departures clock now_fill departures b0 in
  lifetime_inv r.1.1 r.1.2 /\ StronglySorted by_time (_all_items r.1.1) /\
  StronglySorted Z.le (e_time <$> _model r.1.1) /\
  raw <$> _all_items r.1.1 ≡ₚ raw <$> items /\
  time <$> _all_items r.1.1 ≡ₚ time <$> items.
Proof.
  intros Hb r. unfold r, set_departures. rewrite Hb.
  match goal with |- context [_fill_up_to_six _ ?b] => set (bs := b) end.
  assert (Hinv : lifetime_inv bs []).
  { unfold lifetime_inv, window, bs. cbn [_all_items _model].
    split_and!; [constructor| |by inversion 1|constructor|simpl; lia].
    intros j it Hl. split; last by inversion 1.
    intros Hs. apply build_items_unshown in Hb; last done.
    rewrite <- sort_by_time_perm in Hb. rewrite Forall_forall in Hb.
    rewrite Hb in Hs; first done. by eapply list_elem_of_lookup_2. }
  destruct (fill_lifetime_inv now_fill bs [] Hinv) as (Hinv' & _ & _).
  pose proof (fill_keeps_sorted now_fill bs (sort_by_time_sorted items)) as Hsorted.
  split_and!; [done|done| | |]; rewrite fill_up_to_six_eq; unfold bs.
  - cbn [fst _model _all_items app].
    apply take_eligible_times_sorted, sort_by_time_sorted.
  - cbn [fst _all_items _model].
    by rewrite take_eligible_keeps_raw, sort_by_time_perm.
  - cbn [fst _all_items _model].
    by rewrite take_eligible_keeps_times, sort_by_time_perm.
Qed.

Lemma load_returns clock now_fill departures b0 :
  (set_departures clock now_fill departures b0).2 = None ->
  exists items, build_items clock 0 departures [] = (items, None).
Proof.
  unfold set_departures.
  destruct (build_items clock 0 departures []) as [items [e|]]; first done.
  by exists items.
Qed.

Lemma load_lifetime_inv clock now_fill departures b0 b1 added :
  set_departures clock now_fill departures b0 = (b1, added, None) ->
  lifetime_inv b1 added /\ StronglySorted by_time (_all_items b1).
Proof.
  intros H.
  destruct (load_returns clock now_fill departures b0) as [items Hb]; first by rewrite H.
  destruct (load_built clock now_fill departures b0 items Hb) as (H1 & H2 & _).
  rewrite H in H1, H2. done.
Qed.

Lemma run_ticks_lifetime_inv ticks b log :
  lifetime_inv b log ->
  lifetime_inv (run_ticks ticks b log).1 (run_ticks ticks b log).2.
Proof.
  revert b log. induction ticks as [|[now now_fill] rest IH]; intros b log Hinv; first done.
  simpl. destruct (tick_lifetime_inv now now_fill b log Hinv) as (Hinv' & _ & _).
  destruct (_refresh_statuses now now_fill b) as [[[b' ev] added] e]. by apply IH.
Qed.

(** Once promoted and gone from the window, gone for good. *)
Lemma run_ticks_not_readded ticks b log j :
  lifetime_inv b log -> j ∈ log -> j ∉ window b ->
  j ∉ window (run_ticks ticks b log).1.
Proof.
  revert b log. induction ticks as [|[now now_fill] rest IH]; intros b log Hinv Hj Hw;
    first done.
  simpl. destruct (tick_lifetime_inv now now_fill b log Hinv) as (Hinv' & Hwin & Hfresh).
  destruct (_refresh_statuses now now_fill b) as [[[b' ev] added] e]. cbn [fst snd] in *.
  apply IH; [done|apply elem_of_app; by left|].
  intros [?|Ha]%Hwin; first done. by apply (Hfresh j).
Qed.



Lemma exec_step_window_bound b st :
  (length (_model b) <= 6)%nat -> (length (_model (exec_step b st)) <= 6)%nat.
Proof.
  intros Hlen. destruct st as [th hook|clock now_fill departures|now now_fill]; simpl.
  - done.
  - unfold set_departures.
    destruct (build_items clock 0 departures []) as [items [e|]]; first done.
    apply fill_window_bound. simpl. lia.
  - unfold _refresh_statuses. destruct (_thresholds b); last done.
    destruct (read_limits _) as [L|]; last done.
    pose proof (tick_window_sublist L (on_event b) now (_model b)
                  (notice_label b, _notice_blink b)) as Hsl.
    destruct (refresh_loop _ _ _ _ _ _) as [[[model1 tr] nt] ev]. cbn [fst snd] in Hsl.
    apply sublist_length in Hsl. rewrite !length_fmap in Hsl.
    match goal with |- context [_fill_up_to_six now_fill ?b1] =>
      pose proof (fill_window_bound now_fill b1) as Hf;
      destruct (_fill_up_to_six now_fill b1) as [[? ?] ?] end.
    apply Hf. simpl. lia.
Qed.

Lemma exec_window_bound steps b :
  (length (_model b) <= 6)%nat -> (length (_model (exec steps b)) <= 6)%nat.
Proof.
  revert b. induction steps as [|st rest IH]; intros b Hlen; first done.
  simpl. apply IH. by apply exec_step_window_bound.
Qed.

(** C1.  Whatever configuration, loads and ticks (raising ones too) are
    applied to a fresh board, the window holds at most 6 entries.  And
    over the life of a schedule, from a load whose schedule was built
    (also when its fill step raised) through any ticks: every schedule
    item is promoted at most once (the log of promotions has no
    duplicate, and no item is in the window twice), an item's [shown]
    flag is set exactly when it has been promoted, and an item that was
    promoted and has left the window is in the window after no further
    ticks. *)
Theorem window_lifetime (steps : list step) (clock : nat -> Z) (now_fill : Z)
    (departures : list pyval) (b0 : Board) (ticks more : list (Z * Z)) :
  (length (_model (exec steps init_board)) <= 6)%nat /\
  ((build_items clock 0 departures []).2 = None ->
   let b1 := (set_departures clock now_fill departures b0).1.1 in
   let added := (set_departures clock now_fill departures b0).1.2 in
   let b := (run_ticks ticks b1 added).1 in
   let log := (run_ticks ticks b1 added).2 in
   (length (_model b) <= 6)%nat /\
   NoDup log /\ NoDup (window b) /\
   (forall j, j ∈ window b -> j ∈ log) /\
   (forall j it, _all_items b !! j = Some it -> (shown it = true <-> j ∈ log)) /\
   (forall j, j ∈ log -> j ∉ window b -> j ∉ window (run_ticks more b log).1)).
Proof.
  split; first (apply exec_window_bound; simpl; lia).
  destruct (build_items clock 0 departures []) as [items e] eqn:Hb.
  cbn [snd]. intros ->.
  destruct (load_built clock now_fill departures b0 items Hb) as (Hinv & _).
  cbv zeta.
  destruct (set_departures clock now_fill departures b0) as [[b1 added] e]. cbn [fst snd] in *.
  pose proof (run_ticks_lifetime_inv ticks b1 added Hinv) as Hrun.
  destruct Hrun as (Hnd & Hshown & Hsub & Hndw & Hlen).
  split_and!; try done.
  intros j Hj Hw. apply run_ticks_not_readded; [|done|done].
  by apply run_ticks_lifetime_inv.
Qed.

(** The theorem on the eight departures loaded at 07:50 and ticked at
    08:00:20, 08:05:20 and 08:10:20: three rows leave, the two waiting
    items enter, nothing is promoted twice. *)
Lemma window_lifetime_witness :
  NoDup (run_ticks [at_ (hms 8 0 20); at_ (hms 8 5 20); at_ (hms 8 10 20)]
           (set_departures (fun _ => hms 7 50 0) (hms 7 50 0) eight_departures main_board).1.1
           (set_departures (fun _ => hms 7 50 0) (hms 7 50 0) eight_departures main_board).1.2).2.
Proof.
  destruct (window_lifetime [] (fun _ => hms 7 50 0) (hms 7 50 0) eight_departures main_board
              [at_ (hms 8 0 20); at_ (hms 8 5 20); at_ (hms 8 10 20)] []) as [_ H].
  destruct H as (_ & H & _); [vm_compute; reflexivity|exact H].
Defined.

(** ** What the fill step promotes *)




(** The schedule a load built holds one item for each element of the
    list, made from it by [schedule_item]. *)
Lemma build_items_spec clock k departures acc items :
  build_items clock k departures acc = (items, None) ->
  exists new,
    items = acc ++ new /\ length new = length departures /\
    forall j it, new !! j = Some it ->
      exists item, departures !! j = Some item /\
                   schedule_item (clock (k + j)%nat) item = Ok it.
Proof.
  revert k acc. induction departures as [|item rest IH]; intros k acc; simpl.
  - intros [= <-]. exists []. by rewrite app_nil_r.
  - destruct (schedule_item (clock k) item) as [it|] eqn:Hit; last done.
    intros (new & -> & Hlen & Hnew)%IH.
    exists (it :: new). rewrite <- app_assoc. split_and!; [done|simpl; lia|].
    intros [|j] it' Hj; simpl in Hj.
    + simplify_eq. exists item. by rewrite Nat.add_0_r.
    + destruct (Hnew j it' Hj) as (item' & ? & ?). exists item'. split; first done.
      by replace (k + S j)%nat with (S k + j)%nat by lia.
Qed.


Lemma load_length clock now_fill departures b0 :
  (set_departures clock now_fill departures b0).2 = None ->
  length (_all_items (set_departures clock now_fill departures b0).1.1) = length departures.
Proof.
  intros Hret. destruct (load_returns _ _ _ _ Hret) as [items Hb].
  unfold set_departures. rewrite Hb, fill_up_to_six_eq.
  cbn [fst _all_items _model].
  rewrite take_eligible_length_items, sort_by_time_perm.
  destruct (build_items_spec _ _ _ _ _ Hb) as (new & -> & ? & _). done.
Qed.


(** ** One-shot cues *)

Lemma sounds_spec L hook is_pass last delta p :
  sounds L hook is_pass last delta p =
  let cA := crossed (secs (arrival_sound_before L)) last delta && negb (arrival p) in
  let cP := crossed (secs (pre77_sound_before L)) last delta && negb (pre77 p) in
  let cS := is_pass && crossed 0 last delta && negb (pass p) in
  ({| pre77 := pre77 p || cP; arrival := arrival p || cA;
      departed := departed p; pass := pass p || cS |},
   (if cA then emit hook "arrival" else []) ++
   (if cP then emit hook "pre30" else []) ++
   (if cS then emit hook "pass" else [])).
Proof.
  unfold sounds, crossed. destruct last as [ld|]; simpl.
  - destruct p as [p7 pa pd pp]; simpl.
    destruct (secs (arrival_sound_before L) <? ld), (delta <=? secs (arrival_sound_before L)),
      (secs (pre77_sound_before L) <? ld), (delta <=? secs (pre77_sound_before L)),
      is_pass, (0 <? ld), (delta <=? 0), p7, pa, pp; reflexivity.
  - rewrite !andb_false_r. destruct p as [p7 pa pd pp]; simpl.
    by rewrite !orb_false_r.
Qed.

Lemma evaluate_outcome L hook now delta nt e :
  let o := evaluate L hook now delta nt e in
  let s := sounds L hook (pass_through (flags e)) (last_delta e) delta (played e) in
  o_removed o = false /\
  last_delta (o_entry o) = Some delta /\
  dwell_until (o_entry o) = dwell_until e /\
  post_depart_at (o_entry o) = post_depart_at e /\
  o_events o =
    (if 0 <=? delta then s.2
     else if terminal_here (flags e) || pass_through (flags e) then []
     else if departed (played e) then [] else emit hook "depart") /\
  played (o_entry o) =
    (if 0 <=? delta then s.1
     else if terminal_here (flags e) || pass_through (flags e) then played e
     else {| pre77 := pre77 (played e); arrival := arrival (played e);
             departed := true; pass := pass (played e) |}).
Proof.
  unfold evaluate.
  destruct (0 <=? delta), (terminal_here (flags e)), (pass_through (flags e));
    cbn [orb];
    try (destruct (delta <=? secs (pre77_sound_before L)));
    cbn [update_status played last_delta];
    try (destruct (sounds _ _ _ _ _ _) as [p ev]); try done.
  all: destruct e as [s r t rw fl du [p7 pa [|] pp] ld pda]; done.
Qed.

Lemma elem_of_emit key hook k : key ∈ emit hook k <-> hook = true /\ key = k.
Proof. destruct hook; simpl; rewrite ?elem_of_cons, ?elem_of_nil; naive_solver. Qed.

Lemma elem_of_emit_if key (c hook : bool) k :
  key ∈ (if c then emit hook k else []) <-> hook = true /\ c = true /\ key = k.
Proof. destruct c; rewrite ?elem_of_emit, ?elem_of_nil; naive_solver. Qed.

Lemma sounds_events_elem L hook is_pass last delta p key :
  key ∈ (sounds L hook is_pass last delta p).2 <->
  hook = true /\
  ((key = "arrival" /\
    crossed (secs (arrival_sound_before L)) last delta && negb (arrival p) = true) \/
   (key = "pre30" /\
    crossed (secs (pre77_sound_before L)) last delta && negb (pre77 p) = true) \/
   (key = "pass" /\ is_pass && crossed 0 last delta && negb (pass p) = true)).
Proof.
  rewrite sounds_spec. cbn [snd]. rewrite !elem_of_app, !elem_of_emit_if. naive_solver.
Qed.

(** How an evaluated entry treats one key. *)
Lemma evaluate_cue L hook now delta nt e key :
  key ∈ cue_keys ->
  let o := evaluate L hook now delta nt e in
  (key ∈ o_events o <->
     hook = true /\ cue_trigger L (flags e) key (last_delta e) delta = true /\
     played_flag key (played e) = false) /\
  played_flag key (played (o_entry o)) =
    played_flag key (played e) || cue_trigger L (flags e) key (last_delta e) delta.
Proof.
  intros Hkey o.
  destruct (evaluate_outcome L hook now delta nt e) as (_ & _ & _ & _ & Hevs & Hpl).
  fold o in Hevs, Hpl. rewrite Hevs, Hpl. clear Hevs Hpl o.
  unfold cue_keys in Hkey. rewrite !elem_of_cons, elem_of_nil in Hkey.
  destruct (0 <=? delta) eqn:Hd.
  - assert ((delta <? 0) = false) as Hn by (apply Z.ltb_ge; by apply Z.leb_le).
    rewrite sounds_events_elem, sounds_spec. cbn [fst].
    destruct Hkey as [->|[->|[->|[->|[]]]]]; unfold cue_trigger, played_flag;
      cbn [String.eqb Ascii.eqb Bool.eqb pre77 arrival departed pass];
      rewrite ?Hd, ?Hn; cbn [andb].
    + destruct (crossed _ _ _), (arrival (played e)); cbn [andb orb negb]; naive_solver.
    + destruct (crossed (secs (pre77_sound_before L)) _ _), (pre77 (played e));
        cbn [andb orb negb]; naive_solver.
    + destruct (pass_through (flags e)), (crossed 0 _ _), (pass (played e));
        cbn [andb orb negb]; naive_solver.
    + rewrite orb_false_r. naive_solver.
  - assert ((delta <? 0) = true) as Hn by (apply Z.ltb_lt; by apply Z.leb_gt).
    destruct Hkey as [->|[->|[->|[->|[]]]]]; unfold cue_trigger, played_flag;
      cbn [String.eqb Ascii.eqb Bool.eqb]; rewrite ?Hd, ?Hn; cbn [andb];
      destruct (terminal_here (flags e)), (pass_through (flags e)); cbn [andb orb negb];
      destruct (played e) as [p7 pa [|] pp]; cbn [pre77 arrival departed pass];
      rewrite ?elem_of_emit, ?elem_of_nil, ?orb_false_r, ?orb_true_r; naive_solver.
Qed.

(** How one round treats one key: when it is emitted, and what it does
    to the flag of [played]. *)
Lemma refresh_entry_cue L hook now nt e key :
  key ∈ cue_keys ->
  let delta := e_time e - now in
  let o := refresh_entry L hook now nt e in
  (key ∈ o_events o <->
     hook = true /\ o_removed o = false /\
     cue_trigger L (flags e) key (last_delta e) delta = true /\
     played_flag key (played e) = false) /\
  (o_removed o = false ->
     played_flag key (played (o_entry o)) =
       played_flag key (played e) || cue_trigger L (flags e) key (last_delta e) delta) /\
  (o_removed o = false -> last_delta (o_entry o) = Some delta).
Proof.
  intros Hkey delta o.
  assert (Hev : forall nt' e',
    flags e' = flags e -> last_delta e' = last_delta e -> played e' = played e ->
    let o' := evaluate L hook now delta nt' e' in
    (key ∈ o_events o' <->
       hook = true /\ o_removed o' = false /\
       cue_trigger L (flags e) key (last_delta e) delta = true /\
       played_flag key (played e) = false) /\
    (o_removed o' = false ->
     played_flag key (played (o_entry o')) =
       played_flag key (played e) || cue_trigger L (flags e) key (last_delta e) delta) /\
    (o_removed o' = false -> last_delta (o_entry o') = Some delta)).
  { intros nt' e' Hf Hl Hp o'.
    destruct (evaluate_cue L hook now delta nt' e' key Hkey) as [H1 H2].
    destruct (evaluate_outcome L hook now delta nt' e') as (Hr & Hld & _).
    fold o' in H1, H2, Hr, Hld. rewrite Hf, Hl, Hp in *.
    split_and!; [rewrite H1, Hr; naive_solver|done|done]. }
  assert (Hrm : forall nt' e',
    let o' := removed nt' e' in
    (key ∈ o_events o' <->
       hook = true /\ o_removed o' = false /\
       cue_trigger L (flags e) key (last_delta e) delta = true /\
       played_flag key (played e) = false) /\
    (o_removed o' = false ->
     played_flag key (played (o_entry o')) =
       played_flag key (played e) || cue_trigger L (flags e) key (last_delta e) delta) /\
    (o_removed o' = false -> last_delta (o_entry o') = Some delta)).
  { intros nt' e'. simpl. rewrite elem_of_nil. naive_solver. }
  unfold o, refresh_entry. fold delta.
  destruct (terminal_here (flags e) && bool_decide (dwell_until e = None) && (delta <=? 0));
    (destruct (terminal_here (flags e)); [|]);
    repeat first
      [ apply Hrm
      | apply Hev; done
      | match goal with
        | |- context [match ?x with _ => _ end] => destruct x eqn:?
        end ].
Qed.

Lemma refresh_entry_events_NoDup L hook now nt e :
  NoDup (o_events (refresh_entry L hook now nt e)) /\
  forall key, key ∈ o_events (refresh_entry L hook now nt e) -> key ∈ cue_keys.
Proof.
  assert (Hev : forall d nt' e',
    NoDup (o_events (evaluate L hook now d nt' e')) /\
    forall key, key ∈ o_events (evaluate L hook now d nt' e') -> key ∈ cue_keys).
  { intros d nt' e'.
    destruct (evaluate_outcome L hook now d nt' e') as (_ & _ & _ & _ & -> & _).
    rewrite sounds_spec. cbn [snd]. unfold emit, cue_keys.
    destruct (0 <=? d), hook, (terminal_here (flags e')), (pass_through (flags e')),
      (departed (played e'));
      cbn [orb andb app];
      repeat match goal with
             | |- context [if ?c then _ else _] => destruct c
             end;
      cbn [app]; (split; [repeat constructor; set_solver|set_solver]). }
  unfold refresh_entry, removed.
  repeat first
    [ apply Hev
    | split; [constructor|by inversion 1]
    | match goal with
      | |- context [match ?x with _ => _ end] => destruct x eqn:?
      end ].
Qed.

Lemma entry_run_prev_delta L hook now nt e rest k :
  o_removed (refresh_entry L hook now nt e) = false ->
  prev_delta (o_entry (refresh_entry L hook now nt e)) rest k =
  prev_delta e (now :: rest) (S k).
Proof.
  intros Hr.
  destruct (refresh_entry_cue L hook now nt e "arrival") as (_ & _ & Hld);
    first set_solver.
  destruct (refresh_entry_same_entry L hook now nt e) as (_ & Ht & _).
  destruct k as [|j]; simpl; [by rewrite Hld|by rewrite Ht].
Qed.

(** A key is emitted at tick [k] of a run exactly when its trigger
    holds there, held at no earlier tick, and its flag was clear at the
    start. *)
Lemma entry_run_cue L hook nows nt e key k o now :
  key ∈ cue_keys ->
  entry_run L hook nows nt e !! k = Some o -> nows !! k = Some now ->
  (key ∈ o_events o <->
     hook = true /\ o_removed o = false /\
     cue_trigger L (flags e) key (prev_delta e nows k) (e_time e - now) = true /\
     played_flag key (played e) = false /\
     forall j nowj, (j < k)%nat -> nows !! j = Some nowj ->
       cue_trigger L (flags e) key (prev_delta e nows j) (e_time e - nowj) = false).
Proof.
  intros Hkey. revert nt e k.
  induction nows as [|now0 rest IH]; intros nt e k Ho Hnow; first done.
  destruct (refresh_entry_cue L hook now0 nt e key Hkey) as (Hin & Hpl & Hld).
  destruct k as [|k]; simpl in Ho, Hnow.
  - simplify_eq. rewrite Hin. simpl.
    split; [intros (?&?&?&?); split_and!; [done..|lia]|naive_solver].
  - destruct (o_removed (refresh_entry L hook now0 nt e)) eqn:Hr; first done.
    specialize (IH _ _ _ Ho Hnow).
    destruct (refresh_entry_same_entry L hook now0 nt e) as (_ & Ht & Hf & _).
    rewrite IH, Ht, Hf, (Hpl eq_refl), orb_false_iff.
    rewrite entry_run_prev_delta by done.
    split.
    + intros (? & ? & ? & [? ?] & Hall). split_and!; [done..|].
      intros [|j] nowj Hj Hnj; simpl in Hnj.
      * by simplify_eq.
      * rewrite <- (entry_run_prev_delta L hook now0 nt e) by done.
        apply Hall; [lia|done].
    + intros (? & ? & ? & ? & Hall). split_and!; [done..| |].
      * apply (Hall 0%nat now0); [lia|done].
      * intros j nowj Hj Hnj. rewrite entry_run_prev_delta by done.
        apply (Hall (S j)); [lia|done].
Qed.

(** No key is handed to [on_event] twice for one entry. *)
Lemma entry_run_events_NoDup L hook nows nt e :
  NoDup (mjoin (o_events <$> entry_run L hook nows nt e)).
Proof.
  revert nt e. induction nows as [|now0 rest IH]; intros nt e; first constructor.
  simpl. apply NoDup_app.
  destruct (refresh_entry_events_NoDup L hook now0 nt e) as [Hnd Hkeys].
  split_and!; [done| |].
  - intros key Hk Hk'. apply list_elem_of_join in Hk' as (evs & Hk' & Hevs).
    apply list_elem_of_fmap in Hevs as (o & -> & Ho).
    destruct (o_removed (refresh_entry L hook now0 nt e)) eqn:Hr; first by inversion Ho.
    apply list_elem_of_lookup in Ho as [k Ho].
    assert (is_Some (rest !! k)) as [now Hnow].
    { apply lookup_lt_is_Some. apply lookup_lt_Some in Ho.
      clear -Ho. revert Ho. generalize (o_notice (refresh_entry L hook now0 nt e)).
      generalize (o_entry (refresh_entry L hook now0 nt e)). revert k.
      induction rest as [|n r IHr]; intros k e' nt'; simpl; first lia.
      destruct k; first lia. destruct (o_removed _); simpl; first lia.
      intros H. apply Nat.succ_lt_mono in H. apply IHr in H. lia. }
    assert (Hrun : entry_run L hook (now0 :: rest) nt e !! S k = Some o).
    { simpl. by rewrite Hr. }
    apply (entry_run_cue L hook (now0 :: rest) nt e key (S k) o now (Hkeys _ Hk) Hrun Hnow)
      in Hk' as (_ & _ & _ & Hp & Hall).
    destruct (refresh_entry_cue L hook now0 nt e key (Hkeys _ Hk)) as (Hin & _).
    apply Hin in Hk as (_ & _ & Htrig & _).
    specialize (Hall 0%nat now0). simpl in Hall.
    rewrite Hall in Htrig; [done|lia|done].
  - destruct (o_removed _); [constructor|apply IH].
Qed.

Lemma entry_run_length L hook nows nt e :
  (length (entry_run L hook nows nt e) <= length nows)%nat.
Proof.
  revert nt e. induction nows as [|now rest IH]; intros nt e; simpl; first lia.
  destruct (o_removed _); simpl; [lia|].
  specialize (IH (o_notice (refresh_entry L hook now nt e))
                 (o_entry (refresh_entry L hook now nt e))). lia.
Qed.

Lemma entry_run_now L hook nows nt e k o :
  entry_run L hook nows nt e !! k = Some o -> is_Some (nows !! k).
Proof.
  intros H%lookup_lt_Some. apply lookup_lt_is_Some.
  pose proof (entry_run_length L hook nows nt e). lia.
Qed.

(** C3 (as amended).  For one window entry followed through any ticks:
    no key is handed to [on_event] twice, and a key whose [played] flag
    is set is not handed over again.  For an entry fresh from the fill
    step, with the hook installed, on a tick that keeps the entry: the
    arrival key is emitted exactly at the first tick with
    [0 <= delta] and [last_delta > arrival_before_secs >= delta]; the
    pre-approach key ([pre30]) likewise for [approach_before_secs]; the
    departure key ([depart]) exactly at the first kept tick with
    [delta < 0], for an entry that is neither terminal nor pass-through;
    the pass key only for a pass-through entry on a tick with
    [last_delta > 0 >= delta]. *)
Theorem one_shot_cues (L : Limits) (hook : bool) (nows : list Z) (nt : NoticeState)
    (e0 : Visible) (i : nat) (it : SchedItem) (r : DepartureRow) :
  NoDup (mjoin (o_events <$> entry_run L hook nows nt e0)) /\
  (forall key, key ∈ cue_keys -> played_flag key (played e0) = true ->
     key ∉ mjoin (o_events <$> entry_run L hook nows nt e0)) /\
  (forall k o now,
     entry_run L true nows nt (new_entry i it r) !! k = Some o -> nows !! k = Some now ->
     let e := new_entry i it r in
     let delta := time it - now in
     let last := prev_delta e nows k in
     let not_before key :=
       forall j nowj, (j < k)%nat -> nows !! j = Some nowj ->
         cue_trigger L (flags e) key (prev_delta e nows j) (time it - nowj) = false in
     ("arrival" ∈ o_events o <->
        o_removed o = false /\
        (0 <= delta /\ crossed (secs (arrival_sound_before L)) last delta = true) /\
        not_before "arrival") /\
     ("pre30" ∈ o_events o <->
        o_removed o = false /\
        (0 <= delta /\ crossed (secs (pre77_sound_before L)) last delta = true) /\
        not_before "pre30") /\
     ("depart" ∈ o_events o <->
        o_removed o = false /\
        (delta < 0 /\ terminal_here (flags e) = false /\ pass_through (flags e) = false) /\
        not_before "depart") /\
     ("pass" ∈ o_events o ->
        pass_through (flags e) = true /\ crossed 0 last delta = true)).
Proof.
  split_and!.
  - apply entry_run_events_NoDup.
  - intros key Hkey Hp (evs & Hk & Hevs)%list_elem_of_join.
    apply list_elem_of_fmap in Hevs as (o & -> & Ho).
    apply list_elem_of_lookup in Ho as [k Ho].
    destruct (entry_run_now _ _ _ _ _ _ _ Ho) as [now Hnow].
    apply (entry_run_cue L hook nows nt e0 key k o now Hkey Ho Hnow) in Hk.
    destruct Hk as (_ & _ & _ & Hp' & _). congruence.
  - intros k o now Ho Hnow e delta last not_before.
    assert (Hc : forall key, key ∈ cue_keys ->
      key ∈ o_events o <->
      o_removed o = false /\ cue_trigger L (flags e) key last delta = true /\
      not_before key).
    { intros key Hkey.
      rewrite (entry_run_cue L true nows nt e key k o now Hkey Ho Hnow).
      assert (played_flag key (played e) = false) as Hpf.
      { unfold cue_keys in Hkey. rewrite !elem_of_cons, elem_of_nil in Hkey.
        by destruct Hkey as [->|[->|[->|[->|[]]]]]. }
      unfold not_before, delta, last, e. simpl e_time. naive_solver. }
    split_and!.
    + rewrite (Hc "arrival") by set_solver. unfold cue_trigger.
      cbn [String.eqb Ascii.eqb Bool.eqb]. rewrite andb_true_iff, Z.leb_le. naive_solver.
    + rewrite (Hc "pre30") by set_solver. unfold cue_trigger.
      cbn [String.eqb Ascii.eqb Bool.eqb]. rewrite andb_true_iff, Z.leb_le. naive_solver.
    + rewrite (Hc "depart") by set_solver. unfold cue_trigger.
      cbn [String.eqb Ascii.eqb Bool.eqb].
      rewrite !andb_true_iff, !negb_true_iff, Z.ltb_lt. naive_solver.
    + rewrite (Hc "pass") by set_solver. unfold cue_trigger.
      cbn [String.eqb Ascii.eqb Bool.eqb]. rewrite !andb_true_iff. naive_solver.
Qed.

(** The theorem at a concrete run: the departure at 08:00 is seen at
    07:58:42, 07:58:43, 07:59:02, 07:59:03 and 08:00:01; the arrival key
    is emitted at the fourth tick, where delta falls from 58 s to 57 s. *)
Lemma one_shot_cues_witness :
  "arrival" ∈
    from_option o_events []
      (entry_run default_limits true
         [hms 7 58 42; hms 7 58 43; hms 7 59 2; hms 7 59 3; hms 8 0 1] notice_off
         (new_entry 0 {| raw := ∅; time := hms 8 0 0; shown := false |} plain_row) !! 3%nat).
Proof.
  destruct (entry_run _ _ _ _ _ !! 3%nat) as [o|] eqn:Ho;
    last (vm_compute in Ho; discriminate Ho).
  destruct (one_shot_cues default_limits true
              [hms 7 58 42; hms 7 58 43; hms 7 59 2; hms 7 59 3; hms 8 0 1] notice_off
              (new_entry 0 {| raw := ∅; time := hms 8 0 0; shown := false |} plain_row)
              0%nat {| raw := ∅; time := hms 8 0 0; shown := false |} plain_row)
    as (_ & _ & H).
  destruct (H 3%nat o (hms 7 59 3) Ho eq_refl) as (Ha & _).
  apply Ha. clear H Ha. vm_compute in Ho. injection Ho as <-.
  split_and!; [reflexivity|vm_compute; intros [=]|vm_compute; reflexivity|].
  intros [|[|[|j]]] nowj Hj Hn; [injection Hn as <-; vm_compute; reflexivity..|lia].
Defined.

(** C3, the claim as stated fails.  First run: a regular 08:00
    departure is seen at 07:59:02 (delta 58 s) and next at 08:00:01
    (delta -1 s); [last_delta > 57 >= delta] holds there for the first
    time, the entry is kept, and the arrival key is not emitted.  Second
    run: a pass-through train at 10:00 is seen at 09:59:59.5 and at
    10:00:00.5; [last_delta > 0 >= delta] holds for the first time, the
    entry is kept, and no key is emitted. *)
Lemma cue_crossing_not_emitted :
  (run_events [at_ (hms 7 59 2); at_ (hms 8 0 1)] board_0800 = [[]; ["depart"]] /\
   (fun e => (e_time e - hms 8 0 1, last_delta e, status_label (row e)))
     <$> _model (run_ticks [at_ (hms 7 59 2)] board_0800 []).1
     = [(secs (-1), Some (secs 58), st_approaching)] /\
   statuses (run_ticks [at_ (hms 7 59 2); at_ (hms 8 0 1)] board_0800 []).1 = [st_departed] /\
   crossed (secs (arrival_sound_before default_limits)) (Some (secs 58)) (secs (-1)) = true) /\
  (run_events [at_ (hms 9 59 59 + 500000); at_ (hms 10 0 0 + 500000)] board_pass_1000
     = [[]; []] /\
   (fun e => (e_time e - (hms 10 0 0 + 500000), last_delta e, pass_through (flags e)))
     <$> _model (run_ticks [at_ (hms 9 59 59 + 500000)] board_pass_1000 []).1
     = [(-500000, Some 500000, true)] /\
   statuses (run_ticks [at_ (hms 9 59 59 + 500000); at_ (hms 10 0 0 + 500000)]
               board_pass_1000 []).1 = [st_passed] /\
   crossed 0 (Some 500000) (-500000) = true).
Proof. vm_compute. done. Qed.

(** ** The keys handed to [on_event] *)

Lemma refresh_loop_events_keys L hook now idx model nt :
  Forall (fun key => key ∈ cue_keys) (refresh_loop L hook now idx model nt).2.
Proof.
  revert idx nt. induction model as [|e rest IH]; intros idx nt; first constructor.
  simpl. specialize (IH (S idx) (o_notice (refresh_entry L hook now nt e))).
  destruct (refresh_loop _ _ _ _ rest _) as [[[rest' tr] nt'] ev]. cbn [snd] in *.
  apply Forall_app. split; last done.
  apply Forall_forall. apply refresh_entry_events_NoDup.
Qed.

(** C7 (as amended).  Every key a tick hands to [on_event] is one of
    [arrival], [pre30], [pass] and [depart]. *)
Theorem emitted_keys (now now_fill : Z) (b : Board) :
  Forall (fun key => key ∈ ["arrival"; "pre30"; "pass"; "depart"])
         (_refresh_statuses now now_fill b).1.1.2.
Proof.
  unfold _refresh_statuses. destruct (_thresholds b) as [th|]; last constructor.
  destruct (read_limits th) as [L|]; last constructor.
  pose proof (refresh_loop_events_keys L (on_event b) now 0 (_model b)
                (notice_label b, _notice_blink b)) as H.
  destruct (refresh_loop _ _ _ _ _ _) as [[[model1 tr] nt] ev].
  by destruct (_fill_up_to_six _ _) as [[? ?] ?].
Qed.

(** C7, the claim as stated fails: the 08:00 departure seen at 07:58:42
    and 07:58:43 makes the second tick emit [pre30], and seen at 07:59:59
    and 08:00:01 makes the second tick emit [depart]; neither is one of
    the identifiers [arrival], [pre_approach], [departed], [pass]. *)
Lemma emitted_keys_not_spec_ids :
  ~ Forall (fun key => key ∈ spec_cue_ids)
      (_refresh_statuses (hms 7 58 43) (hms 7 58 43)
         (run_ticks [at_ (hms 7 58 42)] board_0800 []).1).1.1.2 /\
  ~ Forall (fun key => key ∈ spec_cue_ids)
      (_refresh_statuses (hms 8 0 1) (hms 8 0 1)
         (run_ticks [at_ (hms 7 59 59)] board_0800 []).1).1.1.2.
Proof.
  split.
  - replace (_refresh_statuses _ _ _).1.1.2 with ["pre30"] by (vm_compute; reflexivity).
    intros H%Forall_inv. unfold spec_cue_ids in H. set_solver.
  - replace (_refresh_statuses _ _ _).1.1.2 with ["depart"] by (vm_compute; reflexivity).
    intros H%Forall_inv. unfold spec_cue_ids in H. set_solver.
Qed.

(** C8 (as amended).  The arrival key is decided the same way for every
    kind of entry, pass-through and terminal included: a round emits it
    exactly when the hook is installed, the entry is kept, [0 <= delta],
    [last_delta > arrival_before_secs >= delta] and the [arrival] flag
    of [played] is clear. *)
Theorem arrival_cue_every_kind (L : Limits) (hook : bool) (now : Z) (nt : NoticeState)
    (e : Visible) :
  let delta := e_time e - now in
  let o := refresh_entry L hook now nt e in
  "arrival" ∈ o_events o <->
  hook = true /\ o_removed o = false /\ 0 <= delta /\
  crossed (secs (arrival_sound_before L)) (last_delta e) delta = true /\
  arrival (played e) = false.
Proof.
  intros delta o.
  destruct (refresh_entry_cue L hook now nt e "arrival") as (H & _); first set_solver.
  fold delta o in H. rewrite H. unfold cue_trigger, played_flag.
  cbn [String.eqb Ascii.eqb Bool.eqb]. rewrite andb_true_iff, Z.leb_le. naive_solver.
Qed.

(** C8, the claim as stated fails: the pass-through train at 10:00, seen
    at 09:59:02 (delta 58 s) and at 09:59:03 (delta 57 s), makes the
    second tick emit the arrival key; so does the terminating train at
    09:00 seen at 08:59:02 and 08:59:03. *)
Lemma arrival_cue_for_pass_through :
  (pass_through ∘ flags <$> _model board_pass_1000 = [true] /\
   run_events [at_ (hms 9 59 2); at_ (hms 9 59 3)] board_pass_1000 = [[]; ["arrival"]]) /\
  (terminal_here ∘ flags <$> _model board_terminal_0900 = [true] /\
   run_events [at_ (hms 8 59 2); at_ (hms 8 59 3)] board_terminal_0900 = [[]; ["arrival"]]).
Proof. vm_compute. done. Qed.

(** ** Statuses *)

Lemma evaluate_status L hook now delta nt e :
  let o := evaluate L hook now delta nt e in
  status_label (row (o_entry o)) =
    (if 0 <=? delta then
       if terminal_here (flags e) then
         ladder L delta (is_delayed (flags e)) st_terminal_stopped st_terminal_arrived
           st_terminal_approaching
       else if pass_through (flags e) then
         if delta <=? secs (pre77_sound_before L) then st_approaching
         else if is_delayed (flags e) then st_delayed else st_on_time
       else ladder L delta (is_delayed (flags e)) st_stopped st_arrived st_approaching
     else if terminal_here (flags e) then
       match dwell_until e with
       | Some dwell => if dwell <=? now then st_departed else st_terminal_stopped
       | None => st_terminal_stopped
       end
     else if pass_through (flags e) then st_passed
     else st_departed) /\
  o_notice o =
    (if terminal_here (flags e) then nt
     else if pass_through (flags e) then
       if 0 <=? delta then
         if delta <=? secs (pre77_sound_before L) then notice_on (row e) else notice_off
       else if - secs (pass_remove_after L) <? delta then notice_on (row e) else notice_off
     else nt).
Proof.
  unfold evaluate.
  destruct (0 <=? delta), (terminal_here (flags e)), (pass_through (flags e));
    try (destruct (delta <=? secs (pre77_sound_before L)));
    try (destruct (sounds _ _ _ _ _ _) as [p ev]); try done.
  all: by destruct (departed _).
Qed.

(** C6.  A regular entry (neither terminal nor pass-through) that the
    tick keeps, with [delta >= 0], gets its status from the three-tier
    ladder: stopped up to [stop_before_secs], else arrived up to
    [arrival_before_secs], else approaching up to
    [approach_before_secs], else delayed or on time by [is_delayed].
    With the default thresholds 77/57/40 the 08:00 departure shows
    stopped at 08:00:00, approaching at 07:58:50 and on time at
    07:58:00. *)
Theorem regular_status_ladder (L : Limits) (hook : bool) (now : Z) (nt : NoticeState)
    (e : Visible) :
  (terminal_here (flags e) = false -> pass_through (flags e) = false ->
   0 <= e_time e - now -> - secs (remove_after L) < e_time e - now ->
   let delta := e_time e - now in
   let o := refresh_entry L hook now nt e in
   let status := status_label (row (o_entry o)) in
   o_removed o = false /\
   (delta <= secs (stop_before L) -> status = st_stopped) /\
   (secs (stop_before L) < delta -> delta <= secs (arrival_sound_before L) ->
    status = st_arrived) /\
   (secs (stop_before L) < delta -> secs (arrival_sound_before L) < delta ->
    delta <= secs (pre77_sound_before L) -> status = st_approaching) /\
   (secs (stop_before L) < delta -> secs (arrival_sound_before L) < delta ->
    secs (pre77_sound_before L) < delta ->
    status = if is_delayed (flags e) then st_delayed else st_on_time)) /\
  (read_limits (PDict default_thresholds) = Ok default_limits /\
   (pre77_sound_before default_limits, arrival_sound_before default_limits,
    stop_before default_limits) = (77, 57, 40) /\
   statuses (run_ticks [at_ (hms 8 0 0)] board_0800 []).1 = ["停車中"] /\
   statuses (run_ticks [at_ (hms 7 58 50)] board_0800 []).1 = ["接近"] /\
   statuses (run_ticks [at_ (hms 7 58 0)] board_0800 []).1 = ["定刻"]).
Proof.
  split; last (vm_compute; done).
  intros Ht Hp Hd Hr delta o status.
  assert (o = evaluate L hook now delta nt e) as Ho.
  { unfold o, refresh_entry. fold delta. rewrite Ht, Hp. cbn [andb negb orb].
    destruct (delta <=? - secs (remove_after L)) eqn:E; last done.
    apply Z.leb_le in E. unfold delta in E. lia. }
  destruct (evaluate_status L hook now delta nt e) as [Hs _].
  destruct (evaluate_outcome L hook now delta nt e) as (Hrm & _).
  unfold status. rewrite Ho, Hs, Hrm, Ht, Hp.
  assert ((0 <=? delta) = true) as -> by (apply Z.leb_le; done).
  unfold ladder. split_and!; first done.
  - intros H. apply Z.leb_le in H. by rewrite H.
  - intros H1 H2. apply Z.leb_gt in H1. apply Z.leb_le in H2. by rewrite H1, H2.
  - intros H1 H2 H3. apply Z.leb_gt in H1, H2. apply Z.leb_le in H3.
    by rewrite H1, H2, H3.
  - intros H1 H2 H3. apply Z.leb_gt in H1, H2, H3. by rewrite H1, H2, H3.
Qed.

(** The ladder at the 08:00 entry seen at 07:58:50. *)
Lemma regular_status_ladder_witness :
  status_label (row (o_entry (refresh_entry default_limits true (hms 7 58 50) notice_off
    (new_entry 0 {| raw := ∅; time := hms 8 0 0; shown := false |} plain_row))))
  = st_approaching.
Proof.
  destruct (regular_status_ladder default_limits true (hms 7 58 50) notice_off
              (new_entry 0 {| raw := ∅; time := hms 8 0 0; shown := false |} plain_row))
    as [H _].
  apply H; try reflexivity; vm_compute; (reflexivity || intros [=]).
Defined.

(** What the removal policy does to a terminal entry whose
    [dwell_until], when set, is its time plus 60 seconds. *)
Lemma refresh_entry_terminal L hook now nt e :
  terminal_here (flags e) = true ->
  (dwell_until e = None \/ dwell_until e = Some (e_time e + secs 60)) ->
  let delta := e_time e - now in
  refresh_entry L hook now nt e =
    if 0 <? delta then
      match dwell_until e with
      | None =>
          if (pass_through (flags e) && (delta <=? - secs (pass_remove_after L)))
             || (negb (pass_through (flags e)) && (delta <=? - secs (remove_after L)))
          then removed nt e else evaluate L hook now delta nt e
      | Some _ => evaluate L hook now delta nt e
      end
    else
      let e1 := set_dwell_until (e_time e + secs 60)
                  {| src := src e; row := row e; e_time := e_time e; e_raw := e_raw e;
                     flags := flags e; dwell_until := None; played := played e;
                     last_delta := last_delta e; post_depart_at := post_depart_at e |} in
      if e_time e + secs 60 <=? now then
        let e2 := set_post_depart_at (default now (post_depart_at e)) e1 in
        if secs (remove_after L) <=? now - default now (post_depart_at e)
        then removed nt e2 else evaluate L hook now delta nt e2
      else evaluate L hook now delta nt e1.
Proof.
  intros Ht Hdw delta. unfold refresh_entry. fold delta. rewrite Ht. cbn [andb].
  destruct (0 <? delta) eqn:Hpos.
  - apply Z.ltb_lt in Hpos.
    assert ((delta <=? 0) = false) as -> by (apply Z.leb_gt; lia).
    rewrite andb_false_r.
    destruct Hdw as [Hd|Hd]; rewrite Hd; first done.
    assert ((e_time e + secs 60 <=? now) = false) as ->; last done.
    apply Z.leb_gt. unfold delta, secs in *. lia.
  - apply Z.ltb_ge in Hpos.
    assert ((delta <=? 0) = true) as -> by (apply Z.leb_le; lia).
    rewrite andb_true_r.
    destruct e as [s r t rw fl du pl ld pda]. simpl in *.
    destruct Hdw as [->| ->]; simpl;
      destruct (t + secs 60 <=? now); try done;
      destruct pda as [p|]; simpl; try done.
    all: by rewrite Z.sub_diag.
Qed.

(** C4.  For a terminal-here entry (type [回送]) whose [dwell_until] is
    unset or its time plus 60 s (as it is from the fill step on): the
    first tick with [delta <= 0] sets [dwell_until] to the effective time
    plus 60 s and later ticks leave it; while [now < dwell_until] the
    entry is kept, [post_depart_at] is untouched and the status is
    terminal-stopped; from [now >= dwell_until] on, [post_depart_at] is
    [now] at the first such tick and unchanged afterwards, the entry is
    removed exactly when [now - post_depart_at >= remove_after_secs] and
    shows departed while it is kept.  The 09:00 train with the default
    thresholds, ticked every second from 09:00:01: stopped for 59 ticks,
    departed for 10, removed at 09:01:10. *)
Theorem terminal_dwell_lifecycle (L : Limits) (hook : bool) (now : Z) (nt : NoticeState)
    (e : Visible) :
  (terminal_here (flags e) = true ->
   (dwell_until e = None \/ dwell_until e = Some (e_time e + secs 60)) ->
   let delta := e_time e - now in
   let o := refresh_entry L hook now nt e in
   let e' := o_entry o in
   let status := status_label (row e') in
   (dwell_until e = None -> delta <= 0 -> dwell_until e' = Some (e_time e + secs 60)) /\
   (dwell_until e = None -> 0 < delta -> dwell_until e' = None) /\
   (forall d, dwell_until e = Some d -> dwell_until e' = Some d) /\
   (dwell_until e' = None \/ dwell_until e' = Some (e_time e' + secs 60)) /\
   (delta <= 0 -> now < e_time e + secs 60 ->
    o_removed o = false /\ post_depart_at e' = post_depart_at e /\
    (delta < 0 \/ 0 <= stop_before L -> status = st_terminal_stopped)) /\
   (e_time e + secs 60 <= now ->
    (post_depart_at e = None -> post_depart_at e' = Some now) /\
    (forall t, post_depart_at e = Some t -> post_depart_at e' = Some t) /\
    (o_removed o = true <->
     secs (remove_after L) <= now - default now (post_depart_at e)) /\
    (o_removed o = false -> status = st_departed))) /\
  (dwell_until <$> _model (run_ticks [at_ (hms 9 0 1)] board_terminal_0900 []).1
     = [Some (hms 9 1 0)] /\
   run_statuses (every_second (hms 9 0 1) 70) board_terminal_0900
     = replicate 59 ["終着 停車中"] ++ replicate 10 ["発車"] ++ [[]]).
Proof.
  split; last (vm_compute; done).
  intros Ht Hdw delta o e' status.
  pose proof (refresh_entry_terminal L hook now nt e Ht Hdw) as Ho.
  fold delta o in Ho. cbv zeta in Ho.
  assert (Hev : forall x,
    let ox := evaluate L hook now delta nt x in
    o_removed ox = false /\ dwell_until (o_entry ox) = dwell_until x /\
    post_depart_at (o_entry ox) = post_depart_at x /\
    e_time (o_entry ox) = e_time x).
  { intros x ox. destruct (evaluate_outcome L hook now delta nt x) as (? & _ & ? & ? & _).
    destruct (evaluate_same_entry L hook now delta nt x) as [(_ & ? & _) _]. done. }
  destruct (0 <? delta) eqn:Hpos.
  - apply Z.ltb_lt in Hpos.
    assert (Hcase : o = removed nt e \/ o = evaluate L hook now delta nt e).
    { rewrite Ho. destruct (dwell_until e); [by right|].
      destruct (_ || _); [by left|by right]. }
    assert (Hd : dwell_until e' = dwell_until e /\ e_time e' = e_time e).
    { unfold e'. destruct Hcase as [-> | ->]; first done.
      by destruct (Hev e) as (_ & ? & _ & ?). }
    destruct Hd as [Hd1 Hd2]. rewrite Hd1, Hd2.
    split_and!; [lia|done|done|done|lia|unfold secs in *; lia].
  - apply Z.ltb_ge in Hpos.
    match type of Ho with
    | _ = if _ then (if _ then removed nt ?x2 else _) else evaluate _ _ _ _ _ ?x1 =>
        set (e2 := x2) in *; set (e1 := x1) in *
    end.
    assert (Hd : dwell_until e' = Some (e_time e + secs 60) /\ e_time e' = e_time e).
    { unfold e'. rewrite Ho.
      destruct (_ <=? now); [destruct (_ <=? _)|];
        [done|by destruct (Hev e2) as (_ & -> & _ & ->)
             |by destruct (Hev e1) as (_ & -> & _ & ->)]. }
    destruct Hd as [Hd1 Hd2]. rewrite Hd1, Hd2.
    split_and!; [done|lia| |by right| |].
    + intros d Hd. destruct Hdw as [?|?]; congruence.
    + intros _ Hlt.
      assert ((e_time e + secs 60 <=? now) = false) as Hb by (apply Z.leb_gt; lia).
      rewrite Hb in Ho. unfold status, e'. rewrite Ho.
      destruct (Hev e1) as (-> & _ & -> & _). split_and!; [done|done|].
      intros Hst. destruct (evaluate_status L hook now delta nt e1) as [-> _].
      change (flags e1) with (flags e). rewrite Ht.
      change (dwell_until e1) with (Some (e_time e + secs 60)). cbv beta iota. rewrite Hb.
      destruct (0 <=? delta) eqn:H0; last done.
      apply Z.leb_le in H0. unfold ladder.
      assert (delta = 0) as -> by lia.
      destruct Hst as [?|Hst]; first lia.
      assert ((0 <=? secs (stop_before L)) = true) as ->; last done.
      apply Z.leb_le. unfold secs. lia.
    + intros Hge.
      assert ((e_time e + secs 60 <=? now) = true) as Hb by (apply Z.leb_le; lia).
      rewrite Hb in Ho. unfold status, e'. rewrite Ho.
      destruct (secs (remove_after L) <=? now - default now (post_depart_at e)) eqn:Hrm.
      * apply Z.leb_le in Hrm. cbn [removed o_entry o_removed].
        split_and!; [intros Hp|intros t Hp|done|done];
          unfold e2, e1; cbn; by rewrite Hp.
      * apply Z.leb_gt in Hrm. destruct (Hev e2) as (-> & _ & -> & _).
        split_and!;
          [intros Hp; unfold e2, e1; cbn; by rewrite Hp
          |intros t Hp; unfold e2, e1; cbn; by rewrite Hp
          |split; [done|lia]|].
        intros _. destruct (evaluate_status L hook now delta nt e2) as [-> _].
        change (flags e2) with (flags e). rewrite Ht.
        change (dwell_until e2) with (Some (e_time e + secs 60)). cbv beta iota. rewrite Hb.
        assert ((0 <=? delta) = false) as ->; last done.
        apply Z.leb_gt. unfold delta, secs in *. lia.
Qed.

(** The theorem at the 09:00 terminal entry on its first tick past its
    time, 09:00:01. *)
Lemma terminal_dwell_lifecycle_witness :
  dwell_until (o_entry (refresh_entry default_limits true (hms 9 0 1) notice_off
    (new_entry 0 {| raw := {["type" := PStr "回送"]}; time := hms 9 0 0; shown := false |}
       plain_row)))
  = Some (hms 9 0 0 + secs 60).
Proof.
  destruct (terminal_dwell_lifecycle default_limits true (hms 9 0 1) notice_off
    (new_entry 0 {| raw := {["type" := PStr "回送"]}; time := hms 9 0 0; shown := false |}
       plain_row))
    as [H _].
  destruct H as (H & _); [vm_compute; reflexivity|by left|].
  apply H; [reflexivity|vm_compute; intros [=]].
Defined.

(** ** The platform notice of a pass-through entry *)

(** An entry the tick removes leaves the notice banner as it found
    it. *)
Lemma removed_keeps_notice L hook now nt e :
  o_removed (refresh_entry L hook now nt e) = true ->
  o_notice (refresh_entry L hook now nt e) = nt.
Proof.
  unfold refresh_entry, removed.
  repeat first
    [ done
    | match goal with
      | |- context [evaluate ?L ?h ?n ?d ?t ?x] =>
          destruct (evaluate_outcome L h n d t x) as (-> & _)
      end
    | match goal with
      | |- context [match ?x with _ => _ end] => destruct x eqn:?
      end ].
Qed.

(** C5.  What a round does with a pass-through entry that is not
    terminal: within [0 <= delta <= approach_before_secs] it is shown
    approaching and the notice is switched on; further ahead it is shown
    on time or delayed and the notice is switched off; with
    [-pass_remove_after_secs < delta < 0] it is shown passed and the
    notice is on; with [delta <= -pass_remove_after_secs] it is removed,
    and the notice banner is left as it was.  The 10:00 pass-through
    train on platform 2: approaching with the notice on at 09:59:45,
    passed with the notice on at 10:00:05, and at 10:00:11 the row is
    gone while the notice is still shown and still blinking, also one
    minute later. *)
Theorem pass_through_notice (L : Limits) (hook : bool) (now : Z) (nt : NoticeState)
    (e : Visible) :
  (terminal_here (flags e) = false -> pass_through (flags e) = true ->
   let delta := e_time e - now in
   let o := refresh_entry L hook now nt e in
   let status := status_label (row (o_entry o)) in
   (o_removed o = true <-> delta <= - secs (pass_remove_after L)) /\
   (o_removed o = true -> o_notice o = nt) /\
   (o_removed o = false -> 0 <= delta -> delta <= secs (pre77_sound_before L) ->
    status = st_approaching /\ o_notice o = notice_on (row e)) /\
   (o_removed o = false -> 0 <= delta -> secs (pre77_sound_before L) < delta ->
    status = (if is_delayed (flags e) then st_delayed else st_on_time) /\
    o_notice o = notice_off) /\
   (o_removed o = false -> delta < 0 ->
    status = st_passed /\ o_notice o = notice_on (row e))) /\
  (let b1 := (run_ticks [at_ (hms 9 59 45)] board_pass_1000 []).1 in
   let b2 := (run_ticks [at_ (hms 10 0 5)] b1 []).1 in
   let b3 := (run_ticks [at_ (hms 10 0 11)] b2 []).1 in
   let b4 := (run_ticks [at_ (hms 10 1 11)] b3 []).1 in
   (statuses b1, notice_label b1, _notice_blink b1)
     = (["接近"], "2番線に列車が通過します", true) /\
   (statuses b2, notice_label b2, _notice_blink b2)
     = (["通過"], "2番線に列車が通過します", true) /\
   (statuses b3, notice_label b3, _notice_blink b3)
     = ([], "2番線に列車が通過します", true) /\
   (statuses b4, notice_label b4, _notice_blink b4)
     = ([], "2番線に列車が通過します", true)).
Proof.
  split; last (vm_compute; done).
  intros Ht Hp delta o status.
  assert (Ho : o = if delta <=? - secs (pass_remove_after L)
                   then removed nt e else evaluate L hook now delta nt e).
  { unfold o, refresh_entry. fold delta. rewrite Ht, Hp. cbn [andb negb orb].
    by rewrite orb_false_r. }
  destruct (evaluate_status L hook now delta nt e) as [Hs Hn].
  destruct (evaluate_outcome L hook now delta nt e) as (Hrm & _).
  rewrite Ht, Hp in Hs, Hn. unfold status. rewrite Ho.
  destruct (delta <=? - secs (pass_remove_after L)) eqn:E.
  - apply Z.leb_le in E. cbn [removed o_removed o_notice o_entry].
    split_and!; done.
  - apply Z.leb_gt in E. rewrite Hrm, Hs, Hn.
    split_and!; [split; [done|lia]|done| | |].
    + intros _ H0 H1. apply Z.leb_le in H0, H1. by rewrite H0, H1.
    + intros _ H0 H1. apply Z.leb_le in H0. apply Z.leb_gt in H1. by rewrite H0, H1.
    + intros _ H0. assert ((0 <=? delta) = false) as -> by (apply Z.leb_gt; lia).
      assert ((- secs (pass_remove_after L) <? delta) = true) as ->; last done.
      apply Z.ltb_lt. lia.
Qed.

(** The theorem at the 10:00 pass-through entry seen at 10:00:11: it is
    removed and the notice that was on stays on. *)
Lemma pass_through_notice_witness :
  o_notice (refresh_entry default_limits true (hms 10 0 11) ("2番線に列車が通過します"%string, true)
    (new_entry 0 {| raw := {["pass_through" := PBool true]}; time := hms 10 0 0;
                    shown := false |} plain_row))
  = ("2番線に列車が通過します"%string, true).
Proof.
  destruct (pass_through_notice default_limits true (hms 10 0 11)
              ("2番線に列車が通過します"%string, true)
              (new_entry 0 {| raw := {["pass_through" := PBool true]}; time := hms 10 0 0;
                              shown := false |} plain_row)) as [H _].
  destruct H as (H1 & H2 & _); [vm_compute; reflexivity..|].
  apply H2, H1. vm_compute. intros [=].
Defined.

(** ** The threshold [pass_before_secs] *)

Lemma refresh_entry_consulted L L' hook now nt e :
  consulted L = consulted L' ->
  refresh_entry L hook now nt e = refresh_entry L' hook now nt e.
Proof.
  destruct L, L'. unfold consulted. simpl. by intros [= -> -> -> -> ->].
Qed.

Lemma refresh_loop_consulted L L' hook now idx model nt :
  consulted L = consulted L' ->
  refresh_loop L hook now idx model nt = refresh_loop L' hook now idx model nt.
Proof.
  intros H. revert idx nt. induction model as [|e rest IH]; intros idx nt; first done.
  simpl. by rewrite (refresh_entry_consulted L L' _ _ _ _ H), IH.
Qed.

(** What the head of the tick makes of a dictionary of thresholds, the
    value of [pass_before_secs] set apart. *)
Lemma read_limits_insert th v :
  read_limits (PDict (<["pass_before_secs" := v]> th)) =
  a ← threshold (PDict th) "approach_before_secs" 77;
  b ← threshold (PDict th) "arrival_before_secs" 57;
  c ← threshold (PDict th) "stop_before_secs" 40;
  d ← threshold (PDict th) "remove_after_secs" 10;
  e ← py_int v;
  f ← threshold (PDict th) "pass_remove_after_secs" 10;
  Ok {| pre77_sound_before := a; arrival_sound_before := b; stop_before := c;
        remove_after := d; pass_before := e; pass_remove_after := f |}.
Proof.
  unfold read_limits, threshold, dict_get.
  by rewrite lookup_insert_eq, !lookup_insert_ne.
Qed.

Lemma read_limits_delete th :
  read_limits (PDict (delete "pass_before_secs" th)) =
  a ← threshold (PDict th) "approach_before_secs" 77;
  b ← threshold (PDict th) "arrival_before_secs" 57;
  c ← threshold (PDict th) "stop_before_secs" 40;
  d ← threshold (PDict th) "remove_after_secs" 10;
  f ← threshold (PDict th) "pass_remove_after_secs" 10;
  Ok {| pre77_sound_before := a; arrival_sound_before := b; stop_before := c;
        remove_after := d; pass_before := 20; pass_remove_after := f |}.
Proof.
  unfold read_limits, threshold, dict_get.
  by rewrite lookup_delete_eq, !lookup_delete_ne.
Qed.

Lemma read_limits_pass_before th v1 v2 n1 n2 :
  py_int v1 = Ok n1 -> py_int v2 = Ok n2 ->
  limits_agree (read_limits (PDict (<["pass_before_secs" := v1]> th)))
               (read_limits (PDict (<["pass_before_secs" := v2]> th))).
Proof.
  intros H1 H2. rewrite !read_limits_insert, H1, H2. unfold limits_agree.
  destruct (threshold _ "approach_before_secs" _); cbn [mbind result_bind]; last done.
  destruct (threshold _ "arrival_before_secs" _); cbn [mbind result_bind]; last done.
  destruct (threshold _ "stop_before_secs" _); cbn [mbind result_bind]; last done.
  destruct (threshold _ "remove_after_secs" _); cbn [mbind result_bind]; last done.
  destruct (threshold _ "pass_remove_after_secs" _); cbn [mbind result_bind]; done.
Qed.

Lemma read_limits_pass_before_absent th v1 n1 :
  py_int v1 = Ok n1 ->
  limits_agree (read_limits (PDict (<["pass_before_secs" := v1]> th)))
               (read_limits (PDict (delete "pass_before_secs" th))).
Proof.
  intros H1. rewrite read_limits_insert, read_limits_delete, H1. unfold limits_agree.
  destruct (threshold _ "approach_before_secs" _); cbn [mbind result_bind]; last done.
  destruct (threshold _ "arrival_before_secs" _); cbn [mbind result_bind]; last done.
  destruct (threshold _ "stop_before_secs" _); cbn [mbind result_bind]; last done.
  destruct (threshold _ "remove_after_secs" _); cbn [mbind result_bind]; last done.
  destruct (threshold _ "pass_remove_after_secs" _); cbn [mbind result_bind]; done.
Qed.

(** A value of [pass_before_secs] that [int] refuses makes the reading
    raise: the exception of [int], unless an earlier threshold raised
    first. *)
Lemma read_limits_pass_before_raises th v e :
  py_int v = Raise e ->
  (exists e', read_limits (PDict (<["pass_before_secs" := v]> th)) = Raise e') /\
  forall L0, read_limits (PDict (delete "pass_before_secs" th)) = Ok L0 ->
             read_limits (PDict (<["pass_before_secs" := v]> th)) = Raise e.
Proof.
  intros H. rewrite read_limits_insert, read_limits_delete, H.
  destruct (threshold _ "approach_before_secs" _); cbn [mbind result_bind];
    last (split; [by eexists|done]).
  destruct (threshold _ "arrival_before_secs" _); cbn [mbind result_bind];
    last (split; [by eexists|done]).
  destruct (threshold _ "stop_before_secs" _); cbn [mbind result_bind];
    last (split; [by eexists|done]).
  destruct (threshold _ "remove_after_secs" _); cbn [mbind result_bind];
    last (split; [by eexists|done]).
  split; [by eexists|done].
Qed.

Lemma tick_limits_agree th1 th2 now now_fill b :
  limits_agree (read_limits th1) (read_limits th2) ->
  _refresh_statuses now now_fill (set_thresholds th1 b) =
  (set_thresholds th1 (_refresh_statuses now now_fill (set_thresholds th2 b)).1.1.1,
   (_refresh_statuses now now_fill (set_thresholds th2 b)).1.1.2,
   (_refresh_statuses now now_fill (set_thresholds th2 b)).1.2,
   (_refresh_statuses now now_fill (set_thresholds th2 b)).2).
Proof.
  unfold _refresh_statuses, set_thresholds, limits_agree.
  cbn [_thresholds _model _all_items notice_label _notice_blink on_event].
  destruct (read_limits th1) as [L1|e1], (read_limits th2) as [L2|e2]; try done.
  - intros HL. rewrite (refresh_loop_consulted _ _ _ _ _ _ _ HL).
    destruct (refresh_loop _ _ _ _ _ _) as [[[model1 tr] nt] ev].
    rewrite !fill_up_to_six_eq. done.
  - by intros ->.
Qed.

Lemma tick_keeps_thresholds th now now_fill b :
  set_thresholds th (_refresh_statuses now now_fill (set_thresholds th b)).1.1.1 =
  (_refresh_statuses now now_fill (set_thresholds th b)).1.1.1.
Proof.
  unfold _refresh_statuses, set_thresholds.
  cbn [_thresholds _model _all_items notice_label _notice_blink on_event].
  destruct (read_limits th) as [L|e]; last done.
  destruct (refresh_loop _ _ _ _ _ _) as [[[model1 tr] nt] ev].
  rewrite !fill_up_to_six_eq. done.
Qed.

Lemma run_limits_agree th1 th2 ticks b log :
  limits_agree (read_limits th1) (read_limits th2) ->
  run_events ticks (set_thresholds th1 b) = run_events ticks (set_thresholds th2 b) /\
  run_statuses ticks (set_thresholds th1 b) = run_statuses ticks (set_thresholds th2 b) /\
  run_raised ticks (set_thresholds th1 b) = run_raised ticks (set_thresholds th2 b) /\
  observable (run_ticks ticks (set_thresholds th1 b) log).1 =
    observable (run_ticks ticks (set_thresholds th2 b) log).1 /\
  (run_ticks ticks (set_thresholds th1 b) log).2 =
    (run_ticks ticks (set_thresholds th2 b) log).2.
Proof.
  intros HL. revert b log. induction ticks as [|[now now_fill] rest IH]; intros b log;
    first done.
  simpl. rewrite (tick_limits_agree th1 th2 _ _ _ HL).
  pose proof (tick_keeps_thresholds th2 now now_fill b) as Hk.
  destruct (_refresh_statuses now now_fill (set_thresholds th2 b)) as [[[b' ev] added] e].
  cbn [fst snd] in *.
  destruct (IH b' (log ++ added)) as (-> & -> & -> & -> & ->). by rewrite !Hk.
Qed.

Lemma run_view_agree th1 th2 ticks b log :
  limits_agree (read_limits th1) (read_limits th2) ->
  run_view ticks (set_thresholds th1 b) log = run_view ticks (set_thresholds th2 b) log.
Proof.
  intros HL. unfold run_view.
  by destruct (run_limits_agree th1 th2 ticks b log HL) as (-> & -> & -> & -> & ->).
Qed.

(** C10 (as amended).  Two runs of ticks on boards that differ only in
    the value of [pass_before_secs], both values being ones [int]
    converts (or the threshold being absent in one of them), emit the
    same keys, show the same statuses after every tick, raise the same
    exceptions, and end with the same schedule, window, notice banner
    and promotions.  A value that [int] refuses makes every tick raise
    at the head of [_refresh_statuses] and leave the board untouched; the
    exception is that of [int] when the other thresholds can be read. *)
Theorem pass_before_not_consulted (th : gmap string pyval) (v1 v2 : pyval)
    (ticks : list (Z * Z)) (b : Board) (log : list nat) :
  let b1 := set_thresholds (PDict (<["pass_before_secs" := v1]> th)) b in
  let b2 := set_thresholds (PDict (<["pass_before_secs" := v2]> th)) b in
  let b0 := set_thresholds (PDict (delete "pass_before_secs" th)) b in
  (forall n1, py_int v1 = Ok n1 ->
     (forall n2, py_int v2 = Ok n2 -> run_view ticks b1 log = run_view ticks b2 log) /\
     run_view ticks b1 log = run_view ticks b0 log) /\
  (forall e now now_fill, py_int v1 = Raise e -> e <> NotModelled ->
     (exists e', _refresh_statuses now now_fill b1 = (b1, [], [], Some e')) /\
     forall L0, read_limits (PDict (delete "pass_before_secs" th)) = Ok L0 ->
                _refresh_statuses now now_fill b1 = (b1, [], [], Some e)).
Proof.
  intros b1 b2 b0. unfold b1, b2, b0. split.
  - intros n1 H1. split.
    + intros n2 H2. apply run_view_agree. by eapply read_limits_pass_before.
    + apply run_view_agree. by eapply read_limits_pass_before_absent.
  - intros e now now_fill He _.
    destruct (read_limits_pass_before_raises th v1 e He) as [[e' He'] Hother].
    unfold _refresh_statuses, set_thresholds. cbn [_thresholds]. split.
    + exists e'. by rewrite He'.
    + intros L0 HL0. by rewrite (Hother L0 HL0).
Qed.

(** The theorem at the 08:00 departure seen at 07:58:50: with
    [pass_before_secs] 20 and 5 the two runs show the same, and with the
    text [soon] the tick raises [ValueError] and leaves the board as it
    was. *)
Lemma pass_before_not_consulted_witness :
  let board v :=
    set_thresholds (PDict (<["pass_before_secs" := v]> default_thresholds)) board_0800 in
  run_view [at_ (hms 7 58 50)] (board (PInt 20)) []
    = run_view [at_ (hms 7 58 50)] (board (PInt 5)) [] /\
  _refresh_statuses (hms 7 58 50) (hms 7 58 50) (board (PStr "soon"))
    = (board (PStr "soon"), [], [], Some ValueError).
Proof.
  intros board. split.
  - destruct (pass_before_not_consulted default_thresholds (PInt 20) (PInt 5)
                [at_ (hms 7 58 50)] board_0800 []) as [H _].
    destruct (H 20 eq_refl) as [H2 _]. exact (H2 5 eq_refl).
  - destruct (pass_before_not_consulted default_thresholds (PStr "soon") (PInt 5)
                [] board_0800 []) as [_ H].
    destruct (H ValueError (hms 7 58 50) (hms 7 58 50)) as [_ H2];
      [vm_compute; reflexivity|intros [=]|].
    apply (H2 default_limits). vm_compute. reflexivity.
Defined.

(** C10, the claim as stated fails.  Two boards that differ only in the
    value of [pass_before_secs], 20 on one and the text [soon] (or
    [null]) on the other, tick at 07:58:50 with the 08:00 departure in
    the window: the first shows approaching, the second raises
    [ValueError] ([TypeError]) and still shows on time. *)
Lemma pass_before_rejected_by_int :
  let board v :=
    set_thresholds (PDict (<["pass_before_secs" := v]> default_thresholds)) board_0800 in
  (run_statuses [at_ (hms 7 58 50)] (board (PInt 20)) = [["接近"]] /\
   run_raised [at_ (hms 7 58 50)] (board (PInt 20)) = [None]) /\
  (run_statuses [at_ (hms 7 58 50)] (board (PStr "soon")) = [["定刻"]] /\
   run_raised [at_ (hms 7 58 50)] (board (PStr "soon")) = [Some ValueError]) /\
  (run_statuses [at_ (hms 7 58 50)] (board PNone) = [["定刻"]] /\
   run_raised [at_ (hms 7 58 50)] (board PNone) = [Some TypeError]).
Proof. vm_compute. done. Qed.

(** ** Loading a schedule *)

(** A missing or falsy [delay_secs] counts as 0. *)
Lemma delay_default d :
  (d !! "delay_secs" = None \/ exists v, d !! "delay_secs" = Some v /\ truthy v = false) ->
  py_int (py_or (dict_get d "delay_secs" (PInt 0)) (PInt 0)) = Ok 0.
Proof.
  unfold dict_get, py_or. intros [->|(v & -> & Hv)]; cbn; first done. by rewrite Hv.
Qed.

(** The loop of [set_departures] stops at an element that raises: the
    schedule holds at most the elements before it. *)
Lemma build_items_stops clock k0 departures acc k x e :
  departures !! k = Some x -> schedule_item (clock (k0 + k)%nat) x = Raise e ->
  exists items e',
    build_items clock k0 departures acc = (acc ++ items, Some e') /\
    (length items <= k)%nat /\
    ((forall j y, (j < k)%nat -> departures !! j = Some y ->
                  exists it, schedule_item (clock (k0 + j)%nat) y = Ok it) ->
     e' = e /\ length items = k).
Proof.
  revert k0 acc k. induction departures as [|item rest IH]; intros k0 acc k Hx He; first done.
  simpl. destruct k as [|k]; simpl in Hx.
  - simplify_eq. rewrite Nat.add_0_r in He. rewrite He.
    exists [], e. rewrite app_nil_r. split_and!; [done|done|done].
  - destruct (schedule_item (clock k0) item) as [it|e0] eqn:Hit.
    + replace (k0 + S k)%nat with (S k0 + k)%nat in He by lia.
      destruct (IH (S k0) (acc ++ [it]) k Hx He) as (items & e' & -> & Hlen & Hpre).
      exists (it :: items), e'. rewrite <- app_assoc.
      split_and!; [done|simpl; lia|].
      intros Hall. destruct Hpre as [-> Hl].
      { intros j y Hj Hy. replace (S k0 + j)%nat with (k0 + S j)%nat by lia.
        apply (Hall (S j)); [lia|done]. }
      split; [done|simpl; lia].
    + exists [], e0. rewrite app_nil_r. split_and!; [done|simpl; lia|].
      intros Hall. destruct (Hall 0%nat item) as [it' Hit']; [lia|done|].
      rewrite Nat.add_0_r in Hit'. congruence.
Qed.

Lemma build_items_dicts clock k departures acc items :
  build_items clock k departures acc = (items, None) ->
  exists new, items = acc ++ new /\ raw <$> new = omap dict_of departures /\
              Forall (fun x => is_Some (dict_of x)) departures.
Proof.
  revert k acc. induction departures as [|item rest IH]; intros k acc; simpl.
  - intros [= <-]. exists []. by rewrite app_nil_r.
  - destruct (schedule_item (clock k) item) as [it|] eqn:Hit; last done.
    intros (new & -> & Hraw & Hall)%IH.
    apply schedule_item_Ok in Hit as (d & t & n & -> & Hd & _).
    exists (it :: new). rewrite <- app_assoc. split_and!; [done| |].
    + cbn. by rewrite Hd, Hraw.
    + constructor; [by eexists|done].
Qed.

(** C9 (as amended).  [set_departures] skips nothing.  An element of the
    list on which a round of its loop raises ends the call: the call
    raises, the window is left as it was and the schedule holds at most
    the elements before that one, none after it; when the elements
    before it load, the exception is the one of that element and the
    schedule holds exactly those.  An element that is not a mapping
    raises [AttributeError]; a record whose [delay_secs] is a text that
    is no number raises [ValueError].  A record whose [delay_secs] is
    missing or falsy is loaded with delay 0.  A call that returns has
    loaded every element, each of them a mapping. *)
Theorem load_outcome (clock : nat -> Z) (now_fill : Z) (departures : list pyval)
    (b : Board) :
  let r := set_departures clock now_fill departures b in
  (forall k x e,
     departures !! k = Some x -> schedule_item (clock k) x = Raise e -> e <> NotModelled ->
     r.2 <> None /\ r.1.2 = [] /\ _model r.1.1 = _model b /\
     (length (_all_items r.1.1) <= k)%nat /\
     ((forall j y, (j < k)%nat -> departures !! j = Some y ->
                   exists it, schedule_item (clock j) y = Ok it) ->
      r.2 = Some e /\ length (_all_items r.1.1) = k)) /\
  (forall now x, dict_of x = None -> schedule_item now x = Raise AttributeError) /\
  (forall now d s t,
     d !! "delay_secs" = Some (PStr s) -> s <> ""%string ->
     int_of_str s = Raise ValueError ->
     _parse_today_or_tomorrow_time now (dict_get d "time" (PStr "00:00")) = Ok t ->
     schedule_item now (PDict d) = Raise ValueError) /\
  (forall now d,
     (d !! "delay_secs" = None \/ exists v, d !! "delay_secs" = Some v /\ truthy v = false) ->
     schedule_item now (PDict d) =
       t ← _parse_today_or_tomorrow_time now (dict_get d "time" (PStr "00:00"));
       Ok {| raw := d; time := t; shown := false |}) /\
  (r.2 = None ->
   length (_all_items r.1.1) = length departures /\
   raw <$> _all_items r.1.1 ≡ₚ omap dict_of departures /\
   Forall (fun x => is_Some (dict_of x)) departures).
Proof.
  intros r. unfold r. split_and!.
  - intros k x e Hx He _.
    destruct (build_items_stops clock 0 departures [] k x e Hx He)
      as (items & e' & Hb & Hlen & Hpre).
    unfold set_departures. rewrite Hb. cbn [fst snd _all_items _model app].
    split_and!; [done|done|done|done|].
    intros Hall. destruct (Hpre Hall) as [-> <-]. done.
  - intros now x Hx. by destruct x.
  - intros now d s t Hd Hs Hint Ht. unfold schedule_item.
    rewrite Ht. cbn [mbind result_bind]. unfold dict_get, py_or. rewrite Hd.
    cbn [from_option id truthy]. destruct (String.eqb s "") eqn:Hse.
    { apply String.eqb_eq in Hse. done. }
    cbn [negb py_int]. by rewrite Hint.
  - intros now d Hd. unfold schedule_item. rewrite (delay_default d Hd).
    destruct (_parse_today_or_tomorrow_time _ _) as [t|]; last done.
    cbn [mbind result_bind]. unfold add_seconds.
    change (datetime_span <=? Z.abs 0) with false.
    change (Z.abs 0 <=? 1000000000) with true.
    cbn [mbind result_bind]. do 2 f_equal. unfold secs. lia.
  - intros Hret. destruct (load_returns _ _ _ _ Hret) as [items Hb].
    destruct (load_built clock now_fill departures b items Hb) as (_ & _ & _ & Hraw & _).
    destruct (build_items_dicts _ _ _ _ _ Hb) as (new & Hnew & Hd & Hall).
    simpl in Hnew. subst new.
    split_and!; [by apply load_length|by rewrite Hraw, Hd|done].
Qed.

(** The theorem at a list whose second element is a text: the call
    raises [AttributeError] and leaves the one record before it in the
    schedule; and at a record without [delay_secs], whose time is the
    time read. *)
Lemma load_outcome_witness :
  (let r := set_departures (fun _ => hms 7 50 0) (hms 7 50 0)
              [record [("time", PStr "08:00")]; PStr "08:05"; record [("time", PStr "08:10")]]
              main_board in
   r.2 = Some AttributeError /\ length (_all_items r.1.1) = 1%nat) /\
  schedule_item (hms 7 50 0) (PDict {["time" := PStr "08:00"]})
    = Ok {| raw := {["time" := PStr "08:00"]}; time := hms 8 0 0; shown := false |}.
Proof.
  destruct (load_outcome (fun _ => hms 7 50 0) (hms 7 50 0)
              [record [("time", PStr "08:00")]; PStr "08:05"; record [("time", PStr "08:10")]]
              main_board) as (H & _ & _ & H4 & _).
  split.
  - destruct (H 1%nat (PStr "08:05") AttributeError) as (_ & _ & _ & _ & H');
      [reflexivity|reflexivity|intros [=]|].
    apply H'. intros [|j] y Hj Hy; last lia.
    injection Hy as <-. eexists. vm_compute. reflexivity.
  - rewrite (H4 (hms 7 50 0) {["time" := PStr "08:00"]}); last by left.
    vm_compute. reflexivity.
Defined.

(** C9, the claim as stated fails.  A list whose first element is a
    string raises [AttributeError] and loads nothing, the well-formed
    record after it included; a record whose [delay_secs] is the string
    [soon] raises [ValueError], and the record after it is not loaded. *)
Lemma load_raises_on_malformed :
  (let r := set_departures (fun _ => hms 7 50 0) (hms 7 50 0)
              [PStr "08:00"; record [("time", PStr "08:05")]] main_board in
   r.2 = Some AttributeError /\ _all_items r.1.1 = [] /\ _model r.1.1 = []) /\
  (let r := set_departures (fun _ => hms 7 50 0) (hms 7 50 0)
              [record [("time", PStr "08:00"); ("delay_secs", PStr "soon")];
               record [("time", PStr "08:05")]] main_board in
   r.2 = Some ValueError /\ _all_items r.1.1 = [] /\ _model r.1.1 = []).
Proof. vm_compute. done. Qed.
